(** * ocrlib.nlbin: non-linear page binarization

    A shallow embedding of [src/ocrlib/nlbin.py] and the properties of its
    pipeline: input checks, normalization, whitelevel flattening, skew
    estimation, threshold estimation, the final contrast stretch and the
    command [main] around them; and of the bins of [src/ocrlib/ocrorot.py].

    Numbers.  The samples are numpy float64 values.  They are modelled by
    [sample]: the three IEEE special values and the finite values as exact
    rationals.  A finite result whose magnitude exceeds the largest binary64
    number overflows to an infinity, division by zero and the invalid
    operations give what IEEE 754 gives; rounding to 53 bits and the sign of
    zero are not modelled.

    Arrays.  A numpy array is a shape and its elements in row-major order.

    Library primitives.  The scipy filters (zoom, percentile filter, rotation,
    gaussian filter, binary dilation), [scipy.stats.scoreatpercentile] and the
    square root are parameters of the development, gathered in [Prims]; what
    is assumed of them is stated where it is used. *)

From Stdlib Require Import String.
From Stdlib Require Import List ZArith QArith Qabs Qround Bool Lia Lqa Arith.
Import ListNotations.
Local Open Scope Z_scope.

(** ** Python exceptions and the error monad *)

Inductive exn : Type :=
| ValueError (msg : string)
| OverflowError (msg : string)
| ZeroDivisionError (msg : string).

Inductive result (A : Type) : Type :=
| Ok (a : A)
| Raise (e : exn).
Arguments Ok {A} a.
Arguments Raise {A} e.

Definition bind {A B} (r : result A) (k : A -> result B) : result B :=
  match r with
  | Ok a => k a
  | Raise e => Raise e
  end.

Notation "x <- c ;; k" := (bind c (fun x => k))
  (at level 61, c at next level, right associativity).
Notation "' pat <- c ;; k" := (bind c (fun x => match x with pat => k end))
  (at level 61, pat pattern, c at next level, right associativity).

Definition is_ok {A} (r : result A) : bool :=
  match r with Ok _ => true | Raise _ => false end.

(** ** float64 samples *)

Inductive sample : Type :=
| NaN
| PInf
| NInf
| Fin (q : Q).

(** The largest finite binary64 number, (2^53 - 1) * 2^971. *)
Definition max_float : Q := inject_Z ((2 ^ 53 - 1) * 2 ^ 971).

(** The result of an operation whose exact value is [q] (kept in lowest
    terms). *)
Definition overflow (q : Q) : sample :=
  let q := Qred q in
  if Qle_bool (Qabs q) max_float then Fin q
  else if Qle_bool 0 q then PInf else NInf.

Definition Qlt_bool (a b : Q) : bool := negb (Qle_bool b a).

Definition fopp (x : sample) : sample :=
  match x with
  | NaN => NaN
  | PInf => NInf
  | NInf => PInf
  | Fin q => Fin (- q)
  end.

Definition fadd (x y : sample) : sample :=
  match x, y with
  | NaN, _ | _, NaN => NaN
  | PInf, NInf | NInf, PInf => NaN
  | PInf, _ | _, PInf => PInf
  | NInf, _ | _, NInf => NInf
  | Fin a, Fin b => overflow (a + b)
  end.

Definition fsub (x y : sample) : sample := fadd x (fopp y).

(** The sign of a product or quotient with an infinity. *)
Definition signed_inf (negative : bool) : sample :=
  if negative then NInf else PInf.

Definition fmul (x y : sample) : sample :=
  match x, y with
  | NaN, _ | _, NaN => NaN
  | PInf, PInf | NInf, NInf => PInf
  | PInf, NInf | NInf, PInf => NInf
  | PInf, Fin b | Fin b, PInf =>
      if Qeq_bool b 0 then NaN else signed_inf (Qlt_bool b 0)
  | NInf, Fin b | Fin b, NInf =>
      if Qeq_bool b 0 then NaN else signed_inf (negb (Qlt_bool b 0))
  | Fin a, Fin b => overflow (a * b)
  end.

Definition fdiv (x y : sample) : sample :=
  match x, y with
  | NaN, _ | _, NaN => NaN
  | (PInf | NInf), (PInf | NInf) => NaN
  | PInf, Fin b => signed_inf (Qlt_bool b 0)
  | NInf, Fin b => signed_inf (negb (Qlt_bool b 0))
  | Fin _, (PInf | NInf) => Fin 0
  | Fin a, Fin b =>
      if Qeq_bool b 0 then
        if Qeq_bool a 0 then NaN else signed_inf (Qlt_bool a 0)
      else overflow (a / b)
  end.

(** Comparisons: every comparison with NaN is false. *)
Definition feqb (x y : sample) : bool :=
  match x, y with
  | PInf, PInf | NInf, NInf => true
  | Fin a, Fin b => Qeq_bool a b
  | _, _ => false
  end.

Definition fltb (x y : sample) : bool :=
  match x, y with
  | NaN, _ | _, NaN => false
  | NInf, NInf => false
  | NInf, _ => true
  | _, NInf => false
  | PInf, _ => false
  | Fin _, PInf => true
  | Fin a, Fin b => Qlt_bool a b
  end.

Definition fgtb (x y : sample) : bool := fltb y x.
Definition fleb (x y : sample) : bool :=
  match x, y with
  | NaN, _ | _, NaN => false
  | NInf, _ => true
  | _, NInf => false
  | _, PInf => true
  | PInf, _ => false
  | Fin a, Fin b => Qle_bool a b
  end.

Definition is_nan (x : sample) : bool :=
  match x with NaN => true | _ => false end.

(** A finite binary64 value: a rational within the range of the format. *)
Definition finite (x : sample) : bool :=
  match x with
  | Fin q => Qle_bool (Qabs q) max_float
  | _ => false
  end.

(** [np.minimum] and [np.maximum]: a NaN operand gives NaN. *)
Definition fmin (x y : sample) : sample :=
  if is_nan x || is_nan y then NaN else if fltb y x then y else x.

Definition fmax (x y : sample) : sample :=
  if is_nan x || is_nan y then NaN else if fltb x y then y else x.

(** [np.clip(x, lo, hi)] is [np.minimum(np.maximum(x, lo), hi)]. *)
Definition clip (x lo hi : sample) : sample := fmin (fmax x lo) hi.

(** The closed unit interval. *)
Definition in01 (x : sample) : bool := fleb (Fin 0) x && fleb x (Fin 1).

(** Python's [int(x)] of a float: truncation toward zero. *)
Definition int_of_float (x : sample) : result Z :=
  match x with
  | NaN => Raise (ValueError "cannot convert float NaN to integer")
  | PInf | NInf => Raise (OverflowError "cannot convert float infinity to integer")
  | Fin q => Ok (Z.quot (Qnum q) (Zpos (Qden q)))
  end.

(** Python's [round(x)] of a float: to the nearest integer, ties to even. *)
Definition round_half_even (q : Q) : Z :=
  let n := 2 * Qnum q + Zpos (Qden q) in
  let d := 2 * Zpos (Qden q) in
  let f := n / d in
  if (n mod d =? 0) && Z.odd f then f - 1 else f.

Definition py_round (x : sample) : result Z :=
  match x with
  | NaN => Raise (ValueError "cannot convert float NaN to integer")
  | PInf | NInf => Raise (OverflowError "cannot convert float infinity to integer")
  | Fin q => Ok (round_half_even q)
  end.

(** The float of a Python int. *)
Definition float_of_int (z : Z) : result sample :=
  if Qle_bool (Qabs (inject_Z z)) max_float then Ok (Fin (inject_Z z))
  else Raise (OverflowError "int too large to convert to float").

Definition of_nat (n : nat) : sample := Fin (inject_Z (Z.of_nat n)).

(** ** numpy arrays *)

Record ndarray (A : Type) : Type := mk_ndarray {
  shape : list nat;
  data : list A
}.
Arguments mk_ndarray {A} shape data.
Arguments shape {A} n.
Arguments data {A} n.

Definition farray : Type := ndarray sample.
Definition mask : Type := ndarray bool.

(** [a, b = s] for a shape [s]. *)
Definition unpack2 (s : list nat) : result (nat * nat) :=
  match s with
  | [a; b] => Ok (a, b)
  | [] | [_] => Raise (ValueError "not enough values to unpack (expected 2)")
  | _ => Raise (ValueError "too many values to unpack (expected 2)")
  end.

(** An operation applied to every element; the shape is kept. *)
Definition amap {A B} (f : A -> B) (a : ndarray A) : ndarray B :=
  mk_ndarray (shape a) (map f (data a)).

Fixpoint map2 {A B C} (f : A -> B -> C) (l : list A) (m : list B) : list C :=
  match l, m with
  | x :: l', y :: m' => f x y :: map2 f l' m'
  | _, _ => []
  end.

Definition shape_eqb (s t : list nat) : bool :=
  if list_eq_dec Nat.eq_dec s t then true else false.

(** A binary operation on two arrays of one shape (the only case the
    pipeline has; numpy refuses shapes that do not broadcast). *)
Definition azip {A B C} (f : A -> B -> C) (a : ndarray A) (b : ndarray B)
  : result (ndarray C) :=
  if shape_eqb (shape a) (shape b)
  then Ok (mk_ndarray (shape a) (map2 f (data a) (data b)))
  else Raise (ValueError "operands could not be broadcast together").

(** The bound of a slice, as Python adjusts it to a length. *)
Definition slice_index (len : nat) (i : Z) : nat :=
  Z.to_nat (if i <? 0 then Z.max 0 (i + Z.of_nat len)
            else Z.min i (Z.of_nat len)).

(** [a[r0:r1, c0:c1]] of a two-dimensional array with rows of length [w]. *)
Definition slice_rows {A} (w : nat) (l : list A) (rs rn cs cn : nat) : list A :=
  flat_map (fun i => firstn cn (skipn (i * w + cs) l)) (seq rs rn).

Definition slice2 {A} (a : ndarray A) (r0 r1 c0 c1 : Z) : result (ndarray A) :=
  ' (h, w) <- unpack2 (shape a) ;;
  let rs := slice_index h r0 in
  let rn := (slice_index h r1 - rs)%nat in
  let cs := slice_index w c0 in
  let cn := (slice_index w c1 - cs)%nat in
  Ok (mk_ndarray [rn; cn] (slice_rows w (data a) rs rn cs cn)).


(** [a[m]] for a boolean array [m]: the selected elements, in order. *)
Fixpoint select {A} (l : list A) (m : list bool) : list A :=
  match l, m with
  | x :: l', b :: m' => if b then x :: select l' m' else select l' m'
  | _, _ => []
  end.

(** [np.amin] and [np.amax] of all the elements. *)
Definition reduce (f : sample -> sample -> sample) (name : string)
    (l : list sample) : result sample :=
  match l with
  | [] => Raise (ValueError
      ("zero-size array to reduction operation " ++ name ++ " which has no identity")%string)
  | x :: l' => Ok (fold_left f l' x)
  end.

Definition amin (a : farray) : result sample := reduce fmin "minimum" (data a).
Definition amax (a : farray) : result sample := reduce fmax "maximum" (data a).

(** [np.mean]: the sum divided by the number of elements (NaN when empty). *)
Definition fsum (l : list sample) : sample := fold_left fadd l (Fin 0).

Definition mean (l : list sample) : sample :=
  fdiv (fsum l) (of_nat (length l)).

(** [np.var]: the mean of the squared deviations from the mean. *)
Definition var (l : list sample) : sample :=
  let m := mean l in
  mean (map (fun x => let d := fsub x m in fmul d d) l).

(** [np.sort] (NaN last) and [np.median]: NaN if a NaN is present, else the
    middle of the sorted elements (the mean of the two middle ones for an
    even count). *)
Definition sort_le (x y : sample) : bool := is_nan y || fleb x y.

Fixpoint insert_sorted (x : sample) (l : list sample) : list sample :=
  match l with
  | [] => [x]
  | y :: l' => if sort_le x y then x :: l else y :: insert_sorted x l'
  end.

Definition sort (l : list sample) : list sample :=
  fold_right insert_sorted [] l.

Definition median (l : list sample) : sample :=
  if existsb is_nan l then NaN
  else
    let s := sort l in
    let n := length l in
    if Nat.even n
    then mean (firstn 2 (skipn (n / 2 - 1) s))
    else nth (n / 2) s NaN.

(** [np.linspace(start, stop, num)] with the end point included. *)
Definition linspace (start stop : sample) (num : Z) : result (list sample) :=
  if num <? 0 then
    Raise (ValueError "Number of samples must be non-negative.")
  else
    let n := Z.to_nat num in
    let div := (n - 1)%nat in
    let delta := fsub stop start in
    let y := map of_nat (seq 0 n) in
    let y :=
      if (0 <? div)%nat then
        let step := fdiv delta (of_nat div) in
        if feqb step (Fin 0)
        then map (fun v => fmul (fdiv v (of_nat div)) delta) y
        else map (fun v => fmul v step) y
      else map (fun v => fmul v delta) y in
    let y := map (fun v => fadd v start) y in
    Ok (if (1 <? n)%nat then removelast y ++ [stop] else y).

(** ** Python's [max] of a list of (variance, angle) pairs

    Tuples are compared from the left: the first components that are not
    equal decide.  [max] keeps the first of the largest items. *)
Definition tuple_gt (x y : sample * sample) : bool :=
  if negb (feqb (fst x) (fst y)) then fgtb (fst x) (fst y)
  else if negb (feqb (snd x) (snd y)) then fgtb (snd x) (snd y)
  else false.

Definition py_max (l : list (sample * sample)) : result (sample * sample) :=
  match l with
  | [] => Raise (ValueError "max() arg is an empty sequence")
  | x :: l' => Ok (fold_left (fun m y => if tuple_gt y m then y else m) l' x)
  end.

(** The order in which Python compares two pairs of numbers, neither of
    them NaN. *)
Definition pair_le (x y : sample * sample) : Prop :=
  fltb (fst x) (fst y) = true \/
  (feqb (fst x) (fst y) = true /\ fleb (snd x) (snd y) = true).

Definition no_nan (x : sample * sample) : Prop :=
  is_nan (fst x) = false /\ is_nan (snd x) = false.

(** [np.mean(a, axis=1)]: of an array of shape (d0, d1, ...), the means
    along the second axis, in row-major order. *)
Definition mean_axis1 (a : farray) : result (list sample) :=
  match shape a with
  | d0 :: d1 :: rest =>
      let inner := fold_right Nat.mul 1%nat rest in
      Ok (flat_map (fun i =>
            map (fun k =>
                   mean (map (fun j => nth ((i * d1 + j) * inner + k) (data a) NaN)
                             (seq 0 d1)))
                (seq 0 inner))
            (seq 0 d0))
  | _ => Raise (ValueError "axis 1 is out of bounds for array")
  end.

(** Python's [x / y] of two floats. *)
Definition py_div (x y : sample) : result sample :=
  if feqb y (Fin 0) then Raise (ZeroDivisionError "float division by zero")
  else Ok (fdiv x y).

(** [scipy.stats.scoreatpercentile(a, per)] of a flat array: the value at
    the fractional index [per / 100 * (n - 1)] of the sorted elements,
    interpolated linearly between its two neighbours. *)
Definition scoreatpercentile (l : list sample) (per : sample) : result sample :=
  match l with
  | [] => Ok NaN
  | _ =>
    let sorted := sort l in
    if negb (fleb (Fin 0) per && fleb per (Fin 100)) then
      Raise (ValueError "percentile must be in the range [0, 100]")
    else
      let idx := fmul (fdiv per (Fin 100)) (of_nat (length l - 1)) in
      i <- int_of_float idx ;;
      if feqb (Fin (inject_Z i)) idx then
        Ok (fdiv (fmul (nth (Z.to_nat i) sorted NaN) (Fin 1)) (Fin 1))
      else
        let j := i + 1 in
        let w0 := fsub (Fin (inject_Z j)) idx in
        let w1 := fsub idx (Fin (inject_Z i)) in
        let sumval := fadd w0 w1 in
        Ok (fdiv (fadd (fmul (nth (Z.to_nat i) sorted NaN) w0)
                       (fmul (nth (Z.to_nat j) sorted NaN) w1))
                 sumval)
  end.

(** ** The scipy primitives

    Each computes the samples of its result; the shape of the result is the
    one scipy gives it and is built by the wrappers below. *)
Record Prims : Type := mk_Prims {
  (** [interpolation.zoom(a, z)]: the samples, for the output shape given. *)
  zoom_data : farray -> sample -> list nat -> list sample;
  (** [filters.percentile_filter(a, perc, size)]. *)
  percentile_filter_data : farray -> sample -> Z * Z -> list sample;
  (** [interpolation.rotate(a, angle, order=, mode="constant", reshape=)]. *)
  rotate_data : farray -> sample -> nat -> bool -> list sample;
  (** The shape of a rotation that reshapes. *)
  rotate_shape : list nat -> sample -> list nat;
  (** [filters.gaussian_filter(a, sigma)]. *)
  gaussian_filter_data : farray -> sample -> list sample;
  (** [morphology.binary_dilation(m, structure=np.ones(size))]. *)
  binary_dilation_data : mask -> Z * Z -> list bool;
  (** [x ** 0.5]. *)
  fsqrt : sample -> sample
}.

(** The command line arguments, with the defaults of the parser. *)
Record Args : Type := mk_Args {
  nocheck : bool;
  threshold : sample;
  zoom : sample;
  escale : sample;
  bignore : sample;
  perc : sample;
  range : Z;
  maxskew : sample;
  gray : bool;
  lo : sample;
  hi : sample;
  skewsteps : Z
}.

Definition default_args : Args := {|
  nocheck := false;
  threshold := Fin (-1);
  zoom := Fin (1 # 2);
  escale := Fin 1;
  bignore := Fin (1 # 10);
  perc := Fin 80;
  range := 20;
  maxskew := Fin 2;
  gray := false;
  lo := Fin 5;
  hi := Fin 90;
  skewsteps := 8
|}.

Fixpoint mapM {A B} (f : A -> result B) (l : list A) : result (list B) :=
  match l with
  | [] => Ok []
  | x :: l' => y <- f x ;; ys <- mapM f l' ;; Ok (y :: ys)
  end.

(** The output shape of [interpolation.zoom]: every dimension times the
    zoom factor, rounded. *)
Definition zoom_dim (z : sample) (d : nat) : result nat :=
  f <- float_of_int (Z.of_nat d) ;;
  r <- py_round (fmul f z) ;;
  if r <? 0 then Raise (ValueError "negative dimensions are not allowed")
  else Ok (Z.to_nat r).

Definition zoom_shape (s : list nat) (z : sample) : result (list nat) :=
  mapM (zoom_dim z) s.

(** [np.array(x, dtype=np.uint8)] of a float [x]: the C conversion, which
    truncates toward zero and is defined when the truncated value is a byte
    ([None] where C leaves it undefined: NaN, the infinities and the values
    out of range). *)
Definition uint8_of_float (x : sample) : option Z :=
  match int_of_float x with
  | Ok z => if (0 <=? z) && (z <=? 255) then Some z else None
  | Raise _ => None
  end.

(** ** The module nlbin

    [debug_nlbin] is [False], so the plotting branches never run and are
    left out. *)
Module Nlbin.
Section Pipeline.

Variable P : Prims.

Definition ndimage_zoom (a : farray) (z : sample) : result farray :=
  s <- zoom_shape (shape a) z ;;
  Ok (mk_ndarray s (zoom_data P a z s)).

Definition percentile_filter (a : farray) (perc : sample) (size : Z * Z) : farray :=
  mk_ndarray (shape a) (percentile_filter_data P a perc size).

Definition rotate (a : farray) (angle : sample) (order : nat) (reshape : bool)
  : result farray :=
  if (length (shape a) <? 2)%nat then
    Raise (ValueError "input array should be at least 2D")
  else
    Ok (mk_ndarray (if reshape then rotate_shape P (shape a) angle else shape a)
                   (rotate_data P a angle order reshape)).

Definition gaussian_filter (a : farray) (sigma : sample) : farray :=
  mk_ndarray (shape a) (gaussian_filter_data P a sigma).

Definition binary_dilation (m : mask) (size : Z * Z) : mask :=
  mk_ndarray (shape m) (binary_dilation_data P m size).

Definition check_page (image : farray) : result unit :=
  if (length (shape image) =? 3)%nat then
    Raise (ValueError "input image is color image")
  else if fltb (mean (data image)) (median (data image)) then
    Raise (ValueError "image may be inverted")
  else
    ' (h, w) <- unpack2 (shape image) ;;
    if Z.of_nat h <? 600 then
      Raise (ValueError "image not tall enough for a page image")
    else if 10000 <? Z.of_nat h then
      Raise (ValueError "image too tall for a page image")
    else if Z.of_nat w <? 600 then
      Raise (ValueError "image too narrow for a page image")
    else if 10000 <? Z.of_nat w then
      Raise (ValueError "line too wide for a page image")
    else Ok tt.

(** The variance of the row means of the image rotated by [a]. *)
Definition row_variance (image : farray) (a : sample) : result sample :=
  r <- rotate image a 0 true ;;
  v <- mean_axis1 r ;;
  Ok (var v).

Definition estimate_skew_angle (image : farray) (angles : list sample)
  : result sample :=
  estimates <- mapM (fun a => v <- row_variance image a ;; Ok (v, a)) angles ;;
  ' (_, a) <- py_max estimates ;;
  Ok a.

Definition normalize_raw_image (raw : farray) : result farray :=
  mn <- amin raw ;;
  let image := amap (fun x => fsub x mn) raw in
  a <- amax image ;;
  b <- amin image ;;
  if feqb a b then Raise (ValueError "image is empty")
  else
    c <- amax image ;;
    Ok (amap (fun x => fdiv x c) image).

(** The local whitelevel: the image zoomed out, filtered along each axis
    and zoomed back in. *)
Definition whitelevel (image : farray) (zoom perc : sample) (range : Z)
  : result farray :=
  m <- ndimage_zoom image zoom ;;
  let m := percentile_filter m perc (range, 2) in
  let m := percentile_filter m perc (2, range) in
  z <- py_div (Fin 1) zoom ;;
  ndimage_zoom m z.

Definition common_shape (s t : list nat) : result (nat * nat) :=
  if (length s =? length t)%nat then unpack2 (map2 Nat.min s t)
  else Raise (ValueError "operands could not be broadcast together").

Definition estimate_local_whitelevel (image : farray) (zoom perc : sample)
    (range : Z) : result farray :=
  m <- whitelevel image zoom perc range ;;
  ' (w, h) <- common_shape (shape image) (shape m) ;;
  a <- slice2 image 0 (Z.of_nat w) 0 (Z.of_nat h) ;;
  b <- slice2 m 0 (Z.of_nat w) 0 (Z.of_nat h) ;;
  d <- azip fsub a b ;;
  Ok (amap (fun x => clip (fadd x (Fin 1)) (Fin 0) (Fin 1)) d).

(** [int(bignore * d)] for a dimension [d]. *)
Definition border (bignore : sample) (d : nat) : result Z :=
  f <- float_of_int (Z.of_nat d) ;;
  int_of_float (fmul bignore f).

(** [flat[o0 : d0 - o0, o1 : d1 - o1]]. *)
Definition crop_border (flat : farray) (d0 d1 : nat) (o0 o1 : Z) : result farray :=
  slice2 flat o0 (Z.of_nat d0 - o0) o1 (Z.of_nat d1 - o1).

(** The candidate angles of the skew search. *)
Definition skew_angles (maxskew : sample) (skewsteps : Z) : result (list sample) :=
  let ma := maxskew in
  fs <- float_of_int skewsteps ;;
  ms <- int_of_float (fmul (fmul (Fin 2) maxskew) fs) ;;
  linspace (fopp ma) ma (ms + 1).

Definition estimate_skew (flat : farray) (bignore maxskew : sample) (skewsteps : Z)
  : result (farray * sample) :=
  ' (d0, d1) <- unpack2 (shape flat) ;;
  o0 <- border bignore d0 ;;
  o1 <- border bignore d1 ;;
  mx <- amax flat ;;
  let flat := amap (fun x => fsub mx x) flat in
  mn <- amin flat ;;
  let flat := amap (fun x => fsub x mn) flat in
  est <- crop_border flat d0 d1 o0 o1 ;;
  angles <- skew_angles maxskew skewsteps ;;
  angle <- estimate_skew_angle est angles ;;
  flat <- rotate flat angle 3 false ;;
  mx <- amax flat ;;
  let flat := amap (fun x => fsub mx x) flat in
  Ok (flat, angle).

(** The mask of the regions with significant variance. *)
Definition text_mask (est : farray) (escale : sample) : result mask :=
  let e := escale in
  v <- azip fsub est (gaussian_filter est (fmul e (Fin 20))) ;;
  let v := amap (fsqrt P)
             (gaussian_filter (amap (fun x => fmul x x) v) (fmul e (Fin 20))) in
  mx <- amax v ;;
  let v := amap (fun x => fgtb x (fmul (Fin (3 # 10)) mx)) v in
  k <- int_of_float (fmul e (Fin 50)) ;;
  let v := binary_dilation v (k, 1) in
  k <- int_of_float (fmul e (Fin 50)) ;;
  let v := binary_dilation v (1, k) in
  Ok v.

Definition estimate_thresholds (flat : farray) (bignore escale lo hi : sample)
  : result (sample * sample) :=
  ' (d0, d1) <- unpack2 (shape flat) ;;
  o0 <- border bignore d0 ;;
  o1 <- border bignore d1 ;;
  est <- crop_border flat d0 d1 o0 o1 ;;
  est <- (if fgtb escale (Fin 0) then
            v <- text_mask est escale ;;
            Ok (select (data est) (data v))
          else Ok (data est)) ;;
  lo <- scoreatpercentile est lo ;;
  hi <- scoreatpercentile est hi ;;
  Ok (lo, hi).

(** The contrast stretch that ends [nlbin]. *)
Definition stretch (flat : farray) (lo hi : sample) : farray :=
  let flat := amap (fun x => fsub x lo) flat in
  let d := fsub hi lo in
  let flat := amap (fun x => fdiv x d) flat in
  amap (fun x => clip x (Fin 0) (Fin 1)) flat.

(** The deskewed flattened image and the thresholds of a page. *)
Definition deskewed (raw : farray) (args : Args) : result (farray * sample) :=
  image <- normalize_raw_image raw ;;
  flat <- estimate_local_whitelevel image (zoom args) (perc args) (range args) ;;
  estimate_skew flat (bignore args) (maxskew args) (skewsteps args).

Definition nlbin (raw : farray) (args : Args) : result farray :=
  image <- normalize_raw_image raw ;;
  flat <- estimate_local_whitelevel image (zoom args) (perc args) (range args) ;;
  ' (flat, angle) <- estimate_skew flat (bignore args) (maxskew args)
                       (skewsteps args) ;;
  ' (lo, hi) <- estimate_thresholds flat (bignore args) (escale args)
                  (lo args) (hi args) ;;
  Ok (stretch flat lo hi).

(** [main], from the 8-bit gray levels that PIL decodes ([image.convert("L")]
    as an array) to the array of bytes it saves; [args.output] is given.
    With a threshold that is not negative the result is thresholded to 0
    and 255, otherwise it is scaled to the gray levels. *)
Definition main (image : ndarray Z) (args : Args) : result (ndarray (option Z)) :=
  let image := amap (fun p => fdiv (Fin (inject_Z p)) (Fin 255)) image in
  result <- nlbin image args ;;
  if fleb (Fin 0) (threshold args) then
    Ok (amap (fun x => Some ((if fgtb x (threshold args) then 1 else 0) * 255))
             result)
  else
    Ok (amap (fun x => uint8_of_float (fmul x (Fin 255))) result).

End Pipeline.
End Nlbin.

(** ** The module ocrorot: the bins of the skew and scale models

    [PageSkew] and [PageScale] classify a patch into one of the bins of an
    angle or a scale: [binned] is the class of a value in training,
    [unbinned] the value of a class in prediction. *)
Module Ocrorot.

(** [np.abs]. *)
Definition fabs (x : sample) : sample :=
  match x with
  | NaN => NaN
  | PInf | NInf => PInf
  | Fin q => Fin (Qabs q)
  end.

(** [np.argmin] of a flat array: the scan of numpy, which moves to an
    element that is not greater or equal to the least one so far and stops
    at the first NaN. *)
Fixpoint argmin_from (l : list sample) (i : nat) (mp : sample) (min_ind : nat)
  : nat :=
  match l with
  | [] => min_ind
  | x :: l' =>
      if negb (fleb mp x) then
        if is_nan x then i else argmin_from l' (S i) x i
      else argmin_from l' (S i) mp min_ind
  end.

Definition argmin (l : list sample) : result nat :=
  match l with
  | [] => Raise (ValueError "attempt to get argmin of an empty sequence")
  | x :: l' => Ok (if is_nan x then 0%nat else argmin_from l' 1 x 0)
  end.

Definition binned (x : sample) (bins : list sample) : result nat :=
  argmin (map (fun b => fabs (fsub b x)) bins).

(** [bins[b]] for an integer [b]: a negative index counts from the end;
    [None] is the IndexError of an index out of range. *)
Definition unbinned (b : Z) (bins : list sample) : option sample :=
  let n := Z.of_nat (length bins) in
  if (0 <=? b) && (b <? n) then nth_error bins (Z.to_nat b)
  else if (- n <=? b) && (b <? 0) then nth_error bins (Z.to_nat (b + n))
  else None.

(** The index [r] is the first at which the list [l], which has no NaN,
    is least: every element before is greater, no element is less. *)
Definition first_min (l : list sample) (r : nat) : Prop :=
  (r < length l)%nat /\
  (forall j, (j < r)%nat -> fltb (nth r l NaN) (nth j l NaN) = true) /\
  (forall j, (j < length l)%nat -> fleb (nth r l NaN) (nth j l NaN) = true).

(** Bins that are finite and differ from each other. *)
Definition distinct_bins (bins : list sample) : Prop :=
  Forall (fun b => finite b = true) bins /\
  forall i j, (i < j < length bins)%nat ->
    feqb (nth i bins NaN) (nth j bins NaN) = false.

(** The bins of a model with three classes. *)
Definition example_bins : list sample := [Fin (- (1 # 10)); Fin 0; Fin (1 # 10)].

End Ocrorot.

(** ** An instance of the primitives

    Nearest-neighbour zoom, a rotation by no angle, filters and a dilation
    with windows of one element, and a square root correct to 2^-20: the
    instance on which the examples below run. *)
Definition nearest_zoom (a : farray) (z : sample) (s : list nat) : list sample :=
  match shape a, s with
  | [h; w], [h'; w'] =>
      flat_map (fun i =>
                  map (fun j => nth ((i * h / h') * w + j * w / w') (data a) (Fin 0))
                      (seq 0 w'))
               (seq 0 h')
  | _, _ => repeat (Fin 0) (fold_right Nat.mul 1%nat s)
  end.

Definition approx_sqrt (x : sample) : sample :=
  match x with
  | Fin q =>
      if Qlt_bool q 0 then NaN
      else overflow (Z.sqrt (Qnum q * Zpos (Qden q) * 4 ^ 20)
                       # (Qden q * 2 ^ 20))
  | PInf => PInf
  | _ => NaN
  end.

Definition example_prims : Prims := {|
  zoom_data := nearest_zoom;
  percentile_filter_data := fun a _ _ => data a;
  rotate_data := fun a _ _ _ => data a;
  rotate_shape := fun s _ => s;
  gaussian_filter_data := fun a _ => data a;
  binary_dilation_data := fun m _ => data m;
  fsqrt := approx_sqrt
|}.


(** ** Example inputs *)

Definition image_of (h w : nat) (l : list Q) : farray :=
  mk_ndarray [h; w] (map Fin l).

(** A 4x4 page of 8-bit gray levels. *)
Definition example_page : farray :=
  image_of 4 4 [200; 255; 255; 255;
                255; 100;   0; 255;
                255; 255; 255; 255;
                255;   0; 255; 200]%Q.

(** The same page as PIL decodes it, and a blank white page. *)
Definition example_pixels : ndarray Z :=
  mk_ndarray [4; 4]%nat [200; 255; 255; 255;
                         255; 100;   0; 255;
                         255; 255; 255; 255;
                         255;   0; 255; 200].

Definition white_pixels : ndarray Z :=
  mk_ndarray [2; 2]%nat [255; 255; 255; 255].

(** A page of 5x5 samples. *)
Definition page_5x5 : farray :=
  image_of 5 5 [200; 255; 255; 255; 255;
                255; 100;   0; 255; 255;
                255; 255; 255; 255; 255;
                255;   0; 255; 200; 255;
                255; 255; 255; 255; 255]%Q.

(** A 4x4 page with light marks on a dark ground. *)
Definition dark_page : farray :=
  image_of 4 4 [  0;   0;   0;   0;
                  0; 255; 200;   0;
                  0;   0;   0;   0;
                  0;   0; 100;   0]%Q.

(** The default arguments with no border ignored and no text mask. *)
Definition example_args : Args := {|
  nocheck := false;
  threshold := Fin (-1);
  zoom := Fin (1 # 2);
  escale := Fin 0;
  bignore := Fin 0;
  perc := Fin 80;
  range := 20;
  maxskew := Fin 2;
  gray := false;
  lo := Fin 5;
  hi := Fin 90;
  skewsteps := 8
|}.

(** The same with the result thresholded at 0.5. *)
Definition threshold_args : Args := {|
  nocheck := false;
  threshold := Fin (1 # 2);
  zoom := Fin (1 # 2);
  escale := Fin 0;
  bignore := Fin 0;
  perc := Fin 80;
  range := 20;
  maxskew := Fin 2;
  gray := false;
  lo := Fin 5;
  hi := Fin 90;
  skewsteps := 8
|}.

(** The same with both thresholds at the percentile 0. *)
Definition equal_percentile_args : Args := {|
  nocheck := false;
  threshold := Fin (-1);
  zoom := Fin (1 # 2);
  escale := Fin 0;
  bignore := Fin 0;
  perc := Fin 80;
  range := 20;
  maxskew := Fin 2;
  gray := false;
  lo := Fin 0;
  hi := Fin 0;
  skewsteps := 8
|}.


(** A 2x2 page without ink, as [estimate_skew] hands it to the search. *)
Definition zero_page : farray := image_of 2 2 [0; 0; 0; 0]%Q.


(** An image is constant when its samples are all equal. *)
Definition constant (l : list sample) : Prop :=
  forall x y, In x l -> In y l -> feqb x y = true.

(** A page of two samples, the least and the greatest finite float. *)
Definition extreme_page : farray :=
  mk_ndarray [1; 2]%nat [Fin (- max_float); Fin max_float].


(** ** The module nlbin, with its arrays in memory

    A numpy array is an object.  An operator such as [a - b] and every
    scipy filter allocate a new array; an augmented assignment such as
    [a -= b] writes into the array its target is bound to; a slice
    [a[i:j, k:l]] is a view that reads the array it was taken of.  The heap
    is the list of the arrays allocated so far, and a reference is an array
    of the heap or a window of one. *)
Module Mem.

Definition heap : Type := list farray.
Definition loc : Type := nat.

(** A reference: the array [base] of the heap, seen through the windows
    [a[r0:r1, c0:c1]] taken of it, outermost first. *)
Record aref : Type := mk_aref {
  base : loc;
  windows : list (Z * Z * Z * Z)
}.

Definition Whole (l : loc) : aref := mk_aref l [].

Definition M (A : Type) : Type := heap -> result A * heap.

Definition ret {A} (a : A) : M A := fun h => (Ok a, h).
Definition raise {A} (e : exn) : M A := fun h => (Raise e, h).
Definition lift {A} (r : result A) : M A := fun h => (r, h).

Definition mbind {A B} (m : M A) (k : A -> M B) : M B :=
  fun h =>
    match m h with
    | (Ok a, h') => k a h'
    | (Raise e, h') => (Raise e, h')
    end.

Notation "x <~ c ;; k" := (mbind c (fun x => k))
  (at level 61, c at next level, right associativity).
Notation "' pat <~ c ;; k" := (mbind c (fun x => match x with pat => k end))
  (at level 61, pat pattern, c at next level, right associativity).

Definition empty_array : farray := mk_ndarray [] [].

(** The array a reference reads. *)
Fixpoint through (ws : list (Z * Z * Z * Z)) (a : farray) : result farray :=
  match ws with
  | [] => Ok a
  | (r0, r1, c0, c1) :: ws' => b <- slice2 a r0 r1 c0 c1 ;; through ws' b
  end.

Definition load (r : aref) : M farray :=
  fun h => (through (windows r) (nth (base r) h empty_array), h).

(** A new array. *)
Definition alloc (a : farray) : M loc :=
  fun h => (Ok (length h), h ++ [a]).

Fixpoint replace_nth (l : nat) (f : farray -> farray) (h : heap) : heap :=
  match h, l with
  | [], _ => []
  | a :: h', O => f a :: h'
  | a :: h', S l' => a :: replace_nth l' f h'
  end.

(** An array overwritten in place. *)
Definition update (l : loc) (f : farray -> farray) : M unit :=
  fun h => (Ok tt, replace_nth l f h).

Fixpoint for_each {A B} (f : A -> M B) (l : list A) : M (list B) :=
  match l with
  | [] => ret []
  | x :: l' => y <~ f x ;; ys <~ for_each f l' ;; ret (y :: ys)
  end.

(** *** numpy *)

Definition np_shape (r : aref) : M (list nat) :=
  a <~ load r ;; ret (shape a).

Definition np_amin (r : aref) : M sample := a <~ load r ;; lift (amin a).
Definition np_amax (r : aref) : M sample := a <~ load r ;; lift (amax a).

(** [r op s] and [s op r] for a scalar [s]: a new array. *)
Definition np_map (f : sample -> sample) (r : aref) : M loc :=
  a <~ load r ;; alloc (amap f a).

(** [r1 op r2]: a new array. *)
Definition np_zip (f : sample -> sample -> sample) (r1 r2 : aref) : M loc :=
  a <~ load r1 ;; b <~ load r2 ;; c <~ lift (azip f a b) ;; alloc c.

(** [l op= s] for a scalar [s]: the array [l] itself. *)
Definition np_imap (f : sample -> sample) (l : loc) : M unit :=
  update l (amap f).

(** [r[r0:r1, c0:c1]]: a view of the array of [r]. *)
Definition np_slice (r : aref) (r0 r1 c0 c1 : Z) : M aref :=
  let v := mk_aref (base r) (windows r ++ [(r0, r1, c0, c1)]) in
  _ <~ load v ;; ret v.

Section Pipeline.

Variable P : Prims.

(** *** scipy: every filter returns a new array *)

Definition ndimage_zoom (r : aref) (z : sample) : M loc :=
  a <~ load r ;; m <~ lift (Nlbin.ndimage_zoom P a z) ;; alloc m.

Definition percentile_filter (r : aref) (perc : sample) (size : Z * Z) : M loc :=
  a <~ load r ;; alloc (Nlbin.percentile_filter P a perc size).

Definition rotate (r : aref) (angle : sample) (order : nat) (reshape : bool)
  : M loc :=
  a <~ load r ;; m <~ lift (Nlbin.rotate P a angle order reshape) ;; alloc m.

Definition gaussian_filter (r : aref) (sigma : sample) : M loc :=
  a <~ load r ;; alloc (Nlbin.gaussian_filter P a sigma).

(** *** nlbin *)

Definition estimate_skew_angle (image : aref) (angles : list sample) : M sample :=
  estimates <~ for_each (fun a =>
                       r <~ rotate image a 0 true ;;
                       m <~ load (Whole r) ;;
                       v <~ lift (mean_axis1 m) ;;
                       ret (var v, a))
                    angles ;;
  ' (_, a) <~ lift (py_max estimates) ;;
  ret a.

Definition normalize_raw_image (raw : aref) : M loc :=
  mn <~ np_amin raw ;;
  image <~ np_map (fun x => fsub x mn) raw ;;
  a <~ np_amax (Whole image) ;;
  b <~ np_amin (Whole image) ;;
  if feqb a b then raise (ValueError "image is empty")
  else
    c <~ np_amax (Whole image) ;;
    _ <~ np_imap (fun x => fdiv x c) image ;;
    ret image.

Definition estimate_local_whitelevel (image : aref) (zoom perc : sample)
    (range : Z) : M loc :=
  m <~ ndimage_zoom image zoom ;;
  m <~ percentile_filter (Whole m) perc (range, 2) ;;
  m <~ percentile_filter (Whole m) perc (2, range) ;;
  z <~ lift (py_div (Fin 1) zoom) ;;
  m <~ ndimage_zoom (Whole m) z ;;
  si <~ np_shape image ;;
  sm <~ np_shape (Whole m) ;;
  ' (w, h) <~ lift (Nlbin.common_shape si sm) ;;
  a <~ np_slice image 0 (Z.of_nat w) 0 (Z.of_nat h) ;;
  b <~ np_slice (Whole m) 0 (Z.of_nat w) 0 (Z.of_nat h) ;;
  d <~ np_zip fsub a b ;;
  d <~ np_map (fun x => fadd x (Fin 1)) (Whole d) ;;
  np_map (fun x => clip x (Fin 0) (Fin 1)) (Whole d).

Definition estimate_skew (flat : aref) (bignore maxskew : sample)
    (skewsteps : Z) : M (loc * sample) :=
  s <~ np_shape flat ;;
  ' (d0, d1) <~ lift (unpack2 s) ;;
  o0 <~ lift (Nlbin.border bignore d0) ;;
  o1 <~ lift (Nlbin.border bignore d1) ;;
  mx <~ np_amax flat ;;
  flat <~ np_map (fun x => fsub mx x) flat ;;
  mn <~ np_amin (Whole flat) ;;
  _ <~ np_imap (fun x => fsub x mn) flat ;;
  est <~ np_slice (Whole flat) o0 (Z.of_nat d0 - o0) o1 (Z.of_nat d1 - o1) ;;
  angles <~ lift (Nlbin.skew_angles maxskew skewsteps) ;;
  angle <~ estimate_skew_angle est angles ;;
  flat <~ rotate (Whole flat) angle 3 false ;;
  mx <~ np_amax (Whole flat) ;;
  flat <~ np_map (fun x => fsub mx x) (Whole flat) ;;
  ret (flat, angle).

Definition text_mask (est : aref) (escale : sample) : M mask :=
  let e := escale in
  g <~ gaussian_filter est (fmul e (Fin 20)) ;;
  v <~ np_zip fsub est (Whole g) ;;
  v <~ np_map (fun x => fmul x x) (Whole v) ;;
  v <~ gaussian_filter (Whole v) (fmul e (Fin 20)) ;;
  v <~ np_map (fsqrt P) (Whole v) ;;
  mx <~ np_amax (Whole v) ;;
  v <~ load (Whole v) ;;
  let v := amap (fun x => fgtb x (fmul (Fin (3 # 10)) mx)) v in
  k <~ lift (int_of_float (fmul e (Fin 50))) ;;
  let v := Nlbin.binary_dilation P v (k, 1) in
  k <~ lift (int_of_float (fmul e (Fin 50))) ;;
  let v := Nlbin.binary_dilation P v (1, k) in
  ret v.

Definition estimate_thresholds (flat : aref) (bignore escale lo hi : sample)
  : M (sample * sample) :=
  s <~ np_shape flat ;;
  ' (d0, d1) <~ lift (unpack2 s) ;;
  o0 <~ lift (Nlbin.border bignore d0) ;;
  o1 <~ lift (Nlbin.border bignore d1) ;;
  est <~ np_slice flat o0 (Z.of_nat d0 - o0) o1 (Z.of_nat d1 - o1) ;;
  est <~ (if fgtb escale (Fin 0) then
            v <~ text_mask est escale ;;
            e <~ load est ;;
            l <~ alloc (mk_ndarray [length (select (data e) (data v))]
                                   (select (data e) (data v))) ;;
            ret (Whole l)
          else ret est) ;;
  e <~ load est ;;
  lo <~ lift (scoreatpercentile (data e) lo) ;;
  hi <~ lift (scoreatpercentile (data e) hi) ;;
  ret (lo, hi).

Definition nlbin (raw : aref) (args : Args) : M loc :=
  image <~ normalize_raw_image raw ;;
  flat <~ estimate_local_whitelevel (Whole image) (zoom args) (perc args)
            (range args) ;;
  ' (flat, angle) <~ estimate_skew (Whole flat) (bignore args) (maxskew args)
                       (skewsteps args) ;;
  ' (lo, hi) <~ estimate_thresholds (Whole flat) (bignore args) (escale args)
                  (lo args) (hi args) ;;
  _ <~ np_imap (fun x => fsub x lo) flat ;;
  _ <~ np_imap (fun x => fdiv x (fsub hi lo)) flat ;;
  np_map (fun x => clip x (Fin 0) (Fin 1)) (Whole flat).

End Pipeline.

(** The arrays of [h] are the same in [h']. *)
Definition unchanged (h h' : heap) : Prop :=
  forall l a, nth_error h l = Some a -> nth_error h' l = Some a.

(** The array [l] of [h'] is none of the first [n]: it was allocated
    later. *)
Definition fresh (n : nat) (l : loc) (h' : heap) : Prop :=
  (n <= l < length h')%nat.

(** The postcondition that holds of every result. *)
Definition any {A} : A -> heap -> Prop := fun _ _ => True.

(** A computation run on [h] that keeps the first [n] arrays as they are,
    frees nothing, and whose result, if any, satisfies [Q]. *)
Definition runs (n : nat) {A} (m : M A) (h : heap) (Q : A -> heap -> Prop)
  : Prop :=
  (n <= length h)%nat ->
  (length h <= length (snd (m h)))%nat /\
  firstn n (snd (m h)) = firstn n h /\
  forall a, fst (m h) = Ok a -> Q a (snd (m h)).

(** The reference [x] is to an array of [h] and reads [a] there. *)
Definition loads (h : heap) (x : aref) (a : farray) : Prop :=
  (base x < length h)%nat /\
  through (windows x) (nth (base x) h empty_array) = Ok a.

(** [h'] is [h] with more arrays allocated. *)
Definition extends (h h' : heap) : Prop := exists t, h' = h ++ t.

(** The computation [m], run on [h], does what the value [r] says: it
    raises the exception of [r], or it returns a newly allocated array that
    holds the value of [r]; the arrays of [h] stay as they are. *)
Definition exec_array (m : M loc) (h : heap) (r : result farray) : Prop :=
  exists h', extends h h' /\
    match r with
    | Ok out => m h = (Ok (length h'), h' ++ [out])
    | Raise e => m h = (Raise e, h')
    end.

(** The same for a computation that returns a number or a pair of
    numbers. *)
Definition exec_value {A} (m : M A) (h : heap) (r : result A) : Prop :=
  exists h', extends h h' /\ m h = (r, h').

(** The same for a computation that returns a new array and a value. *)
Definition exec_array_with {B} (m : M (loc * B)) (h : heap)
    (r : result (farray * B)) : Prop :=
  exists h', extends h h' /\
    match r with
    | Ok (out, b) => m h = (Ok (length h', b), h' ++ [out])
    | Raise e => m h = (Raise e, h')
    end.

End Mem.
(** * Properties *)

(** ** Comparisons of samples *)

Lemma Qlt_bool_iff (a b : Q) : Qlt_bool a b = true <-> (a < b)%Q.
Proof.
  unfold Qlt_bool. rewrite negb_true_iff.
  split; intro H.
  - apply Qnot_le_lt. intro L. apply Qle_bool_iff in L. congruence.
  - destruct (Qle_bool b a) eqn:E; [|reflexivity].
    apply Qle_bool_iff in E. exfalso. exact (Qlt_not_le _ _ H E).
Qed.

Lemma Qlt_bool_false_iff (a b : Q) : Qlt_bool a b = false <-> (b <= a)%Q.
Proof.
  unfold Qlt_bool. rewrite negb_false_iff. apply Qle_bool_iff.
Qed.

Lemma Qle_bool_false_iff (a b : Q) : Qle_bool a b = false <-> (b < a)%Q.
Proof.
  rewrite <- Qlt_bool_iff. unfold Qlt_bool.
  destruct (Qle_bool a b); simpl; intuition congruence.
Qed.

Lemma Qeq_bool_false_iff (a b : Q) : Qeq_bool a b = false <-> ~ (a == b)%Q.
Proof.
  rewrite <- Qeq_bool_iff. destruct (Qeq_bool a b); intuition congruence.
Qed.

(** Turns the boolean comparisons of rationals in the context and the goal
    into propositions. *)
Ltac qprop :=
  repeat match goal with
  | H : Qle_bool _ _ = true |- _ => apply Qle_bool_iff in H
  | H : Qle_bool _ _ = false |- _ => apply Qle_bool_false_iff in H
  | H : Qlt_bool _ _ = true |- _ => apply Qlt_bool_iff in H
  | H : Qlt_bool _ _ = false |- _ => apply Qlt_bool_false_iff in H
  | H : Qeq_bool _ _ = true |- _ => apply Qeq_bool_iff in H
  | H : Qeq_bool _ _ = false |- _ => apply Qeq_bool_false_iff in H
  | |- Qle_bool _ _ = true => apply Qle_bool_iff
  | |- Qle_bool _ _ = false => apply Qle_bool_false_iff
  | |- Qlt_bool _ _ = true => apply Qlt_bool_iff
  | |- Qlt_bool _ _ = false => apply Qlt_bool_false_iff
  | |- Qeq_bool _ _ = true => apply Qeq_bool_iff
  | |- Qeq_bool _ _ = false => apply Qeq_bool_false_iff
  end.

Lemma fleb_refl (x : sample) : is_nan x = false -> fleb x x = true.
Proof. destruct x; simpl; try congruence. intros _. qprop. apply Qle_refl. Qed.

Lemma fleb_trans (x y z : sample) :
  fleb x y = true -> fleb y z = true -> fleb x z = true.
Proof.
  destruct x, y, z; simpl; try congruence.
  intros. qprop. eapply Qle_trans; eassumption.
Qed.

Lemma fltb_fleb (x y : sample) : fltb x y = true -> fleb x y = true.
Proof.
  destruct x, y; simpl; try congruence.
  intros. qprop. apply Qlt_le_weak; assumption.
Qed.

Lemma fltb_false_fleb (x y : sample) :
  is_nan x = false -> is_nan y = false -> fltb x y = false -> fleb y x = true.
Proof.
  destruct x, y; simpl; try congruence.
  intros. qprop. assumption.
Qed.

Lemma feqb_fleb (x y : sample) : feqb x y = true -> fleb x y = true.
Proof.
  destruct x, y; simpl; try congruence.
  intros. qprop. rewrite H. apply Qle_refl.
Qed.

Lemma feqb_sym (x y : sample) : feqb x y = feqb y x.
Proof.
  destruct x, y; simpl; try reflexivity.
  destruct (Qeq_bool q q0) eqn:E, (Qeq_bool q0 q) eqn:E'; try reflexivity; qprop.
  - exfalso. apply E'. symmetry. assumption.
  - exfalso. apply E. symmetry. assumption.
Qed.

Lemma fleb_antisym (x y : sample) :
  fleb x y = true -> fleb y x = true -> feqb x y = true.
Proof.
  destruct x, y; simpl; try congruence.
  intros. qprop. apply Qle_antisym; assumption.
Qed.

Lemma fleb_not_nan (x y : sample) :
  fleb x y = true -> is_nan x = false /\ is_nan y = false.
Proof. destruct x, y; simpl; intuition congruence. Qed.

(** ** Clipping to the unit interval *)

Lemma clip_nan (x : sample) :
  is_nan (clip x (Fin 0) (Fin 1)) = is_nan x.
Proof.
  destruct x; try reflexivity.
  unfold clip, fmax, fmin. simpl.
  destruct (Qlt_bool q 0); simpl.
  - reflexivity.
  - destruct (Qlt_bool 1 q); reflexivity.
Qed.

Lemma clip_in01 (x : sample) :
  is_nan x = false -> in01 (clip x (Fin 0) (Fin 1)) = true.
Proof.
  destruct x; simpl; try congruence; try reflexivity. intros _.
  unfold clip, fmax, fmin, in01. simpl.
  destruct (Qlt_bool q 0) eqn:E0; simpl.
  - reflexivity.
  - destruct (Qlt_bool 1 q) eqn:E1; simpl.
    + reflexivity.
    + qprop. apply andb_true_iff. split; qprop; assumption.
Qed.

Lemma clip_nan_or_in01 (x : sample) :
  is_nan (clip x (Fin 0) (Fin 1)) = true \/ in01 (clip x (Fin 0) (Fin 1)) = true.
Proof.
  destruct (is_nan x) eqn:E.
  - left. rewrite clip_nan. assumption.
  - right. apply clip_in01. assumption.
Qed.

Lemma in01_not_nan (x : sample) : in01 x = true -> is_nan x = false.
Proof. destruct x; simpl; try reflexivity. intro H. discriminate H. Qed.

(** ** The error monad *)

Lemma bind_ok_inv {A B} (r : result A) (k : A -> result B) (b : B) :
  bind r k = Ok b -> exists a, r = Ok a /\ k a = Ok b.
Proof.
  destruct r as [a|e]; simpl; intro H.
  - exists a. split; [reflexivity | assumption].
  - discriminate H.
Qed.

(** Splits a successful sequence of binds into its successful steps. *)
Ltac inv_bind H :=
  let a := fresh "v" in
  let E := fresh "E" in
  apply bind_ok_inv in H; destruct H as (a & E & H).

Lemma amap_amap {A B C} (f : A -> B) (g : B -> C) (a : ndarray A) :
  amap g (amap f a) = amap (fun x => g (f x)) a.
Proof. unfold amap. simpl. rewrite map_map. reflexivity. Qed.

Lemma shape_amap {A B} (f : A -> B) (a : ndarray A) : shape (amap f a) = shape a.
Proof. reflexivity. Qed.

(** ** The contrast stretch (C1) *)

Lemma stretch_spec (flat : farray) (lo hi : sample) :
  Nlbin.stretch flat lo hi =
  amap (fun x => clip (fdiv (fsub x lo) (fsub hi lo)) (Fin 0) (Fin 1)) flat.
Proof. unfold Nlbin.stretch. rewrite !amap_amap. reflexivity. Qed.

Lemma nlbin_ok (P : Prims) (raw : farray) (args : Args) (out : farray) :
  Nlbin.nlbin P raw args = Ok out ->
  exists flat angle l h,
    Nlbin.deskewed P raw args = Ok (flat, angle) /\
    Nlbin.estimate_thresholds P flat (bignore args) (escale args)
      (lo args) (hi args) = Ok (l, h) /\
    out = Nlbin.stretch flat l h.
Proof.
  unfold Nlbin.nlbin, Nlbin.deskewed. intro H.
  inv_bind H. inv_bind H. inv_bind H. destruct v1 as [flat angle].
  inv_bind H. destruct v1 as [l h]. injection H as <-.
  exists flat, angle, l, h.
  rewrite E. cbn [bind]. rewrite E0. cbn [bind].
  repeat split; assumption.
Qed.

(** C1, as amended: the image [nlbin] returns is
    clip((flat - lo) / (hi - lo), 0, 1) of the deskewed flattened image
    [flat] with the estimated thresholds, of the same shape; each of its
    samples is NaN or lies in [0,1], and it is NaN exactly where
    (flat - lo) / (hi - lo) is. *)
Theorem nlbin_stretches_deskewed (P : Prims) (raw : farray) (args : Args)
    (out : farray) :
  Nlbin.nlbin P raw args = Ok out ->
  exists flat angle l h,
    Nlbin.deskewed P raw args = Ok (flat, angle) /\
    Nlbin.estimate_thresholds P flat (bignore args) (escale args)
      (lo args) (hi args) = Ok (l, h) /\
    out = amap (fun x => clip (fdiv (fsub x l) (fsub h l)) (Fin 0) (Fin 1)) flat /\
    shape out = shape flat /\
    Forall (fun y => is_nan y = true \/ in01 y = true) (data out) /\
    Forall2 (fun x y => is_nan y = is_nan (fdiv (fsub x l) (fsub h l)))
      (data flat) (data out).
Proof.
  intro H. destruct (nlbin_ok _ _ _ _ H) as (flat & angle & l & h & D & T & ->).
  exists flat, angle, l, h. rewrite stretch_spec.
  split; [exact D|]. split; [exact T|]. split; [reflexivity|].
  split; [reflexivity|]. split.
  - apply Forall_forall. intros y Hy. apply in_map_iff in Hy.
    destruct Hy as (x & <- & _). apply clip_nan_or_in01.
  - cbn [amap data]. induction (data flat) as [|x xs IH]; simpl; constructor.
    + apply clip_nan.
    + exact IH.
Qed.

Lemma nlbin_stretches_deskewed_example :
  exists out,
    Nlbin.nlbin example_prims example_page example_args = Ok out /\
    Forall (fun y => is_nan y = true \/ in01 y = true) (data out).
Proof.
  destruct (Nlbin.nlbin example_prims example_page example_args)
    as [out|e] eqn:E; [|vm_compute in E; discriminate E].
  exists out. split; [reflexivity|].
  destruct (nlbin_stretches_deskewed _ _ _ _ E)
    as (flat & angle & l & h & _ & _ & _ & _ & H & _).
  exact H.
Defined.

(** C1 as stated fails: with both thresholds at one percentile, hi - lo is
    zero and the sample equal to lo becomes 0/0, which no clipping brings
    into [0,1]. *)
Lemma nlbin_sample_outside_unit_interval :
  exists out,
    Nlbin.nlbin example_prims example_page equal_percentile_args = Ok out /\
    ~ Forall (fun y => in01 y = true) (data out).
Proof.
  eexists. split.
  - vm_compute. reflexivity.
  - intro H. rewrite Forall_forall in H.
    specialize (H NaN). simpl in H.
    assert (F : false = true) by (apply H; tauto).
    discriminate F.
Qed.

(** ** Shapes *)

Lemma rotate_noreshape_shape (P : Prims) (a r : farray) (angle : sample)
    (order : nat) :
  Nlbin.rotate P a angle order false = Ok r -> shape r = shape a.
Proof.
  unfold Nlbin.rotate. destruct (length (shape a) <? 2)%nat; intro H.
  - discriminate H.
  - injection H as <-. reflexivity.
Qed.

(** C10: the image [estimate_skew] returns has the shape of its input. *)
Theorem estimate_skew_keeps_shape (P : Prims) (flat : farray)
    (bignore maxskew : sample) (skewsteps : Z) (flat' : farray) (angle : sample) :
  Nlbin.estimate_skew P flat bignore maxskew skewsteps = Ok (flat', angle) ->
  shape flat' = shape flat.
Proof.
  unfold Nlbin.estimate_skew. intro H.
  inv_bind H. destruct v as [d0 d1].
  do 8 inv_bind H. inv_bind H. injection H as <- _.
  rewrite shape_amap.
  match goal with
  | E : Nlbin.rotate _ _ _ _ false = Ok _ |- _ =>
      apply rotate_noreshape_shape in E; rewrite E
  end.
  reflexivity.
Qed.

Lemma estimate_skew_keeps_shape_example :
  exists flat' angle,
    Nlbin.estimate_skew example_prims example_page (Fin (1 # 10)) (Fin 2) 8
      = Ok (flat', angle) /\
    shape flat' = [4; 4]%nat.
Proof.
  destruct (Nlbin.estimate_skew example_prims example_page (Fin (1 # 10))
              (Fin 2) 8) as [[flat' angle]|e] eqn:E;
    [|vm_compute in E; discriminate E].
  exists flat', angle. split; [reflexivity|].
  exact (estimate_skew_keeps_shape _ _ _ _ _ _ _ E).
Defined.

Lemma slice_index_of_nat (len i : nat) :
  slice_index len (Z.of_nat i) = Nat.min i len.
Proof.
  unfold slice_index.
  destruct (Z.ltb_spec (Z.of_nat i) 0); lia.
Qed.

Lemma slice_index_0 (len : nat) : slice_index len 0 = 0%nat.
Proof. unfold slice_index. simpl. lia. Qed.








(** ** Arithmetic without overflow *)

#[global] Opaque max_float.

Lemma max_float_pos : (1 <= max_float)%Q.
Proof. apply Qle_bool_iff. vm_compute. reflexivity. Qed.

Lemma overflow_fin (x : Q) :
  (Qabs x <= max_float)%Q -> overflow x = Fin (Qred x).
Proof.
  intro H. unfold overflow. cbv zeta.
  assert (E : Qle_bool (Qabs (Qred x)) max_float = true).
  { apply Qle_bool_iff. rewrite (Qabs_wd _ _ (Qred_correct x)). exact H. }
  rewrite E. reflexivity.
Qed.

Lemma overflow_fin_between (x m : Q) :
  (- m <= x)%Q -> (x <= m)%Q -> (m <= max_float)%Q ->
  overflow x = Fin (Qred x).
Proof.
  intros L U M. apply overflow_fin. apply Qabs_Qle_condition. split; lra.
Qed.

Lemma int_of_float_floor (x : Q) :
  (0 <= x)%Q -> int_of_float (Fin x) = Ok (Qfloor x).
Proof.
  intro H. destruct x as [n d]. unfold int_of_float, Qfloor. cbn [Qnum Qden].
  f_equal. apply Z.quot_div_nonneg; [|reflexivity].
  unfold Qle in H. simpl in H. lia.
Qed.

Lemma float_of_int_fin (z : Z) :
  0 <= z -> (inject_Z z <= max_float)%Q ->
  float_of_int z = Ok (Fin (inject_Z z)).
Proof.
  intros Z0 H. unfold float_of_int.
  assert (E : Qle_bool (Qabs (inject_Z z)) max_float = true).
  { apply Qle_bool_iff. rewrite Qabs_pos; [exact H|].
    rewrite Zle_Qle in Z0. exact Z0. }
  rewrite E. reflexivity.
Qed.


(** ** The candidate angles (C7) *)

Lemma linspace_length (start stop : sample) (num : Z) (l : list sample) :
  linspace start stop num = Ok l -> length l = Z.to_nat num.
Proof.
  unfold linspace. destruct (num <? 0); [discriminate|].
  intro H. injection H as <-.
  set (n := Z.to_nat num).
  match goal with
  | |- length (if _ then removelast ?y ++ _ else _) = _ =>
      assert (L : length y = n)
  end.
  { destruct (0 <? n - 1)%nat; [destruct (feqb _ _)|];
      rewrite !length_map, length_seq; reflexivity. }
  destruct (Nat.ltb_spec 1 n) as [N|N].
  - rewrite length_app, removelast_firstn_len, length_firstn, L. simpl. lia.
  - exact L.
Qed.








(** ** The order of samples that are not NaN *)

Ltac sample_cases :=
  repeat match goal with
  | x : sample |- _ => destruct x
  end;
  cbn [fltb fleb feqb fgtb is_nan] in *;
  try congruence; try reflexivity; qprop; try lra.

Lemma fltb_trans (x y z : sample) :
  fltb x y = true -> fltb y z = true -> fltb x z = true.
Proof. intros; sample_cases. Qed.

Lemma fltb_feqb_trans (x y z : sample) :
  fltb x y = true -> feqb y z = true -> fltb x z = true.
Proof. intros; sample_cases. Qed.

Lemma feqb_fltb_trans (x y z : sample) :
  feqb x y = true -> fltb y z = true -> fltb x z = true.
Proof. intros; sample_cases. Qed.

Lemma feqb_trans (x y z : sample) :
  feqb x y = true -> feqb y z = true -> feqb x z = true.
Proof. intros; sample_cases. Qed.

Lemma fltb_not_feqb (x y : sample) : fltb x y = true -> feqb x y = false.
Proof. intros; sample_cases. Qed.

Lemma sample_trichotomy (x y : sample) :
  is_nan x = false -> is_nan y = false ->
  fltb x y = false -> feqb x y = false -> fltb y x = true.
Proof. intros; sample_cases. Qed.

Lemma feqb_false_fleb (x y : sample) :
  is_nan x = false -> is_nan y = false ->
  fltb x y = false -> fleb y x = true.
Proof. intros; sample_cases. Qed.

(** ** The maximum of (variance, angle) pairs *)

Lemma pair_le_refl (x : sample * sample) : no_nan x -> pair_le x x.
Proof.
  intros [H1 H2]. right. split.
  - apply fleb_antisym; apply fleb_refl; exact H1.
  - apply fleb_refl. exact H2.
Qed.

Lemma pair_le_trans (x y z : sample * sample) :
  pair_le x y -> pair_le y z -> pair_le x z.
Proof.
  intros [L1|[E1 S1]] [L2|[E2 S2]].
  - left. eapply fltb_trans; eassumption.
  - left. eapply fltb_feqb_trans; eassumption.
  - left. eapply feqb_fltb_trans; eassumption.
  - right. split.
    + eapply feqb_trans; eassumption.
    + eapply fleb_trans; eassumption.
Qed.

Lemma tuple_gt_true (y m : sample * sample) :
  tuple_gt y m = true -> pair_le m y.
Proof.
  unfold tuple_gt, fgtb.
  destruct (feqb (fst y) (fst m)) eqn:E1; cbn [negb].
  - destruct (feqb (snd y) (snd m)) eqn:E2; cbn [negb]; intro H.
    + discriminate H.
    + right. split.
      * rewrite feqb_sym. exact E1.
      * apply fltb_fleb. exact H.
  - intro H. left. exact H.
Qed.

Lemma tuple_gt_false (y m : sample * sample) :
  no_nan y -> no_nan m -> tuple_gt y m = false -> pair_le y m.
Proof.
  unfold tuple_gt, fgtb. intros [Y1 Y2] [M1 M2].
  destruct (feqb (fst y) (fst m)) eqn:E1; cbn [negb].
  - destruct (feqb (snd y) (snd m)) eqn:E2; cbn [negb]; intro H.
    + right. split; [exact E1 | apply feqb_fleb; exact E2].
    + right. split; [exact E1|]. apply feqb_false_fleb; assumption.
  - intro H. left. apply sample_trichotomy; try assumption.
    rewrite feqb_sym. exact E1.
Qed.

Lemma fold_max_spec (l : list (sample * sample)) (x : sample * sample) :
  no_nan x -> Forall no_nan l ->
  let r := fold_left (fun m y => if tuple_gt y m then y else m) l x in
  In r (x :: l) /\ no_nan r /\ pair_le x r /\ Forall (fun e => pair_le e r) l.
Proof.
  revert x. induction l as [|y l IH]; intros x Nx Nl; cbn [fold_left].
  - split; [left; reflexivity|]. split; [exact Nx|].
    split; [apply pair_le_refl; exact Nx | constructor].
  - inversion Nl as [|? ? Ny Nl']; subst.
    destruct (tuple_gt y x) eqn:G.
    + destruct (IH y Ny Nl') as (I & Nr & L & F).
      split; [right; exact I|]. split; [exact Nr|]. split.
      * apply (pair_le_trans _ y); [apply tuple_gt_true; exact G | exact L].
      * constructor; assumption.
    + destruct (IH x Nx Nl') as (I & Nr & L & F).
      split; [destruct I as [I|I]; [left; exact I | right; right; exact I]|].
      split; [exact Nr|]. split; [exact L|].
      constructor; [|exact F].
      apply (pair_le_trans _ x); [apply tuple_gt_false; assumption | exact L].
Qed.

Lemma py_max_spec (l : list (sample * sample)) (r : sample * sample) :
  Forall no_nan l -> py_max l = Ok r ->
  In r l /\ Forall (fun e => pair_le e r) l.
Proof.
  destruct l as [|x l]; intros N H; [discriminate H|].
  injection H as <-. inversion N as [|? ? Nx Nl]; subst.
  destruct (fold_max_spec l x Nx Nl) as (I & _ & L & F).
  split; [exact I | constructor; assumption].
Qed.

Lemma mapM_ok {A B} (f : A -> result B) (l : list A) (m : list B) :
  mapM f l = Ok m -> Forall2 (fun a b => f a = Ok b) l m.
Proof.
  revert m. induction l as [|a l IH]; intros m H; cbn [mapM] in H.
  - injection H as <-. constructor.
  - inv_bind H. inv_bind H. injection H as <-.
    constructor; [assumption | apply IH; assumption].
Qed.

(** ** The skew angle (C3) *)

Lemma estimates_of_angles (P : Prims) (image : farray) (angles : list sample)
    (estimates : list (sample * sample)) :
  mapM (fun a => v <- Nlbin.row_variance P image a ;; Ok (v, a)) angles
    = Ok estimates ->
  (forall v a, In (v, a) estimates ->
     In a angles /\ Nlbin.row_variance P image a = Ok v) /\
  (forall a, In a angles ->
     exists v, Nlbin.row_variance P image a = Ok v /\ In (v, a) estimates).
Proof.
  intro H. apply mapM_ok in H.
  induction H as [|a e angles estimates Hae _ IH].
  - split; [intros v a []|intros a []].
  - inv_bind Hae. injection Hae as <-. destruct IH as [IH1 IH2]. split.
    + intros v' a' [I|I].
      * injection I as <- <-. split; [left; reflexivity | assumption].
      * destruct (IH1 _ _ I) as [Ia Hv]. split; [right; exact Ia | exact Hv].
    + intros a' [<-|I].
      * exists v. split; [assumption | left; reflexivity].
      * destruct (IH2 _ I) as (v' & Hv & Iv).
        exists v'. split; [exact Hv | right; exact Iv].
Qed.

(** C3, as amended: when no candidate angle and no variance is NaN,
    [estimate_skew_angle] returns one of the candidates, its variance is
    maximal over all candidates, and among the candidates that attain the
    maximal variance it is the greatest angle, which is the last of them in
    ascending order. *)
Theorem estimate_skew_angle_maximal (P : Prims) (image : farray)
    (angles : list sample) (r : sample) :
  Nlbin.estimate_skew_angle P image angles = Ok r ->
  Forall (fun a => is_nan a = false) angles ->
  (forall a v, In a angles -> Nlbin.row_variance P image a = Ok v ->
     is_nan v = false) ->
  In r angles /\
  exists vr,
    Nlbin.row_variance P image r = Ok vr /\
    forall a va,
      In a angles -> Nlbin.row_variance P image a = Ok va ->
      fleb va vr = true /\ (feqb va vr = true -> fleb a r = true).
Proof.
  unfold Nlbin.estimate_skew_angle. intros H Na Nv.
  inv_bind H. rename v into estimates. inv_bind H. destruct v as [vr r'].
  injection H as ->.
  destruct (estimates_of_angles _ _ _ _ E) as [E1 E2].
  assert (N : Forall no_nan estimates).
  { apply Forall_forall. intros [v a] I. destruct (E1 _ _ I) as [Ia Hv].
    split; cbn [fst snd].
    - exact (Nv _ _ Ia Hv).
    - rewrite Forall_forall in Na. exact (Na _ Ia). }
  destruct (py_max_spec _ _ N E0) as [I F].
  destruct (E1 _ _ I) as [Ir Hr].
  split; [exact Ir|]. exists vr. split; [exact Hr|].
  intros a va Ia Ha.
  destruct (E2 _ Ia) as (v' & Hv' & Iv').
  rewrite Ha in Hv'. injection Hv' as <-.
  rewrite Forall_forall in F. destruct (F _ Iv') as [L|[Q L]]; cbn [fst snd] in *.
  - split; [apply fltb_fleb; exact L|].
    intro Q. rewrite (fltb_not_feqb _ _ L) in Q. discriminate Q.
  - split; [apply feqb_fleb; exact Q | intros _; exact L].
Qed.

Lemma estimate_skew_angle_maximal_example :
  exists r,
    Nlbin.estimate_skew_angle example_prims example_page
      [Fin (-1); Fin 0; Fin 1] = Ok r /\
    In r [Fin (-1); Fin 0; Fin 1].
Proof.
  destruct (Nlbin.estimate_skew_angle example_prims example_page
              [Fin (-1); Fin 0; Fin 1]) as [r|e] eqn:E;
    [|vm_compute in E; discriminate E].
  exists r. split; [reflexivity|].
  refine (proj1 (estimate_skew_angle_maximal _ _ _ _ E _ _)).
  - repeat constructor.
  - intros a v [<-|[<-|[<-|[]]]] H; vm_compute in H; injection H as <-;
      reflexivity.
Defined.

(** C3 as stated fails: on a page without ink every angle has the variance
    0, and of the angles -1, 0, 1 the search returns 1, not the first. *)
Lemma estimate_skew_angle_tie_takes_last :
  Nlbin.estimate_skew_angle example_prims zero_page
    [Fin (-1); Fin 0; Fin 1] = Ok (Fin 1) /\
  Nlbin.row_variance example_prims zero_page (Fin (-1)) = Ok (Fin 0) /\
  Nlbin.row_variance example_prims zero_page (Fin 0) = Ok (Fin 0) /\
  Nlbin.row_variance example_prims zero_page (Fin 1) = Ok (Fin 0).
Proof. repeat split; vm_compute; reflexivity. Qed.

(** ** The cropped region (C8) *)




Lemma slice_length (d : nat) (o : Z) :
  0 <= o ->
  (slice_index d (Z.of_nat d - o) - slice_index d o)%nat
  = (d - 2 * Z.to_nat o)%nat.
Proof.
  intro H. unfold slice_index.
  destruct (Z.ltb_spec (Z.of_nat d - o) 0), (Z.ltb_spec o 0); lia.
Qed.


Lemma overflow_nonneg (x q : Q) : (0 <= x)%Q -> overflow x = Fin q -> (0 <= q)%Q.
Proof.
  intro H. unfold overflow. cbv zeta.
  destruct (Qle_bool (Qabs (Qred x)) max_float).
  - intro E. injection E as <-. rewrite Qred_correct. exact H.
  - destruct (Qle_bool 0 (Qred x)); discriminate.
Qed.

(** The border ignored for a fraction [bignore >= 0] is not negative. *)
Lemma border_nonneg (bignore : sample) (d : nat) (o : Z) :
  fleb (Fin 0) bignore = true -> Nlbin.border bignore d = Ok o -> 0 <= o.
Proof.
  intros B H. unfold Nlbin.border, float_of_int in H.
  destruct (Qle_bool (Qabs (inject_Z (Z.of_nat d))) max_float);
    [|discriminate H].
  cbn [bind] in H.
  assert (D : (0 <= inject_Z (Z.of_nat d))%Q).
  { change 0%Q with (inject_Z 0). rewrite <- Zle_Qle. lia. }
  destruct bignore as [| | |b]; cbn [fleb fmul] in *; try discriminate.
  - destruct (Qeq_bool (inject_Z (Z.of_nat d)) 0);
      [|destruct (Qlt_bool (inject_Z (Z.of_nat d)) 0)]; discriminate H.
  - qprop.
    destruct (overflow (b * inject_Z (Z.of_nat d))) as [| | |q] eqn:E;
      try discriminate H.
    assert (Q0 : (0 <= q)%Q).
    { apply (overflow_nonneg _ _ (Qmult_le_0_compat _ _ B D) E). }
    rewrite int_of_float_floor in H by exact Q0. injection H as <-.
    rewrite <- (Qfloor_Z 0). apply Qfloor_resp_le. exact Q0.
Qed.



(** ** Minimum and maximum of an array *)

Lemma fold_fmin_spec (l : list sample) (x : sample) :
  is_nan x = false -> Forall (fun e => is_nan e = false) l ->
  let r := fold_left fmin l x in
  In r (x :: l) /\ fleb r x = true /\ Forall (fun e => fleb r e = true) l.
Proof.
  revert x. induction l as [|y l IH]; intros x Nx Nl; cbn [fold_left].
  - split; [left; reflexivity|]. split; [apply fleb_refl; exact Nx | constructor].
  - inversion Nl as [|? ? Ny Nl']; subst.
    destruct (fltb y x) eqn:L.
    + replace (fmin x y) with y
        by (unfold fmin; rewrite Nx, Ny, L; reflexivity).
      destruct (IH y Ny Nl') as (I & Ly & F).
      split; [right; exact I|]. split.
      * apply (fleb_trans _ y); [exact Ly | apply fltb_fleb; exact L].
      * constructor; assumption.
    + replace (fmin x y) with x
        by (unfold fmin; rewrite Nx, Ny, L; reflexivity).
      destruct (IH x Nx Nl') as (I & Lx & F).
      split; [destruct I as [I|I]; [left; exact I | right; right; exact I]|].
      split; [exact Lx|]. constructor; [|exact F].
      apply (fleb_trans _ x); [exact Lx|].
      apply feqb_false_fleb; assumption.
Qed.

Lemma fold_fmax_spec (l : list sample) (x : sample) :
  is_nan x = false -> Forall (fun e => is_nan e = false) l ->
  let r := fold_left fmax l x in
  In r (x :: l) /\ fleb x r = true /\ Forall (fun e => fleb e r = true) l.
Proof.
  revert x. induction l as [|y l IH]; intros x Nx Nl; cbn [fold_left].
  - split; [left; reflexivity|]. split; [apply fleb_refl; exact Nx | constructor].
  - inversion Nl as [|? ? Ny Nl']; subst.
    destruct (fltb x y) eqn:L.
    + replace (fmax x y) with y
        by (unfold fmax; rewrite Nx, Ny, L; reflexivity).
      destruct (IH y Ny Nl') as (I & Ly & F).
      split; [right; exact I|]. split.
      * apply (fleb_trans _ y); [apply fltb_fleb; exact L | exact Ly].
      * constructor; assumption.
    + replace (fmax x y) with x
        by (unfold fmax; rewrite Nx, Ny, L; reflexivity).
      destruct (IH x Nx Nl') as (I & Lx & F).
      split; [destruct I as [I|I]; [left; exact I | right; right; exact I]|].
      split; [exact Lx|]. constructor; [|exact F].
      apply (fleb_trans _ x); [|exact Lx].
      apply feqb_false_fleb; assumption.
Qed.

(** The minimum of a non-empty array without NaN is one of its samples and
    is below all of them; likewise the maximum. *)
Lemma amin_spec (a : farray) :
  data a <> [] -> Forall (fun e => is_nan e = false) (data a) ->
  exists m, amin a = Ok m /\ In m (data a) /\
            Forall (fun e => fleb m e = true) (data a).
Proof.
  unfold amin, reduce. destruct (data a) as [|x l]; [congruence|].
  intros _ N. inversion N as [|? ? Nx Nl]; subst.
  destruct (fold_fmin_spec l x Nx Nl) as (I & L & F).
  eexists. split; [reflexivity|]. split; [exact I | constructor; assumption].
Qed.

Lemma amax_spec (a : farray) :
  data a <> [] -> Forall (fun e => is_nan e = false) (data a) ->
  exists m, amax a = Ok m /\ In m (data a) /\
            Forall (fun e => fleb e m = true) (data a).
Proof.
  unfold amax, reduce. destruct (data a) as [|x l]; [congruence|].
  intros _ N. inversion N as [|? ? Nx Nl]; subst.
  destruct (fold_fmax_spec l x Nx Nl) as (I & L & F).
  eexists. split; [reflexivity|]. split; [exact I | constructor; assumption].
Qed.

Lemma finite_fin (x : sample) :
  finite x = true -> exists q, x = Fin q /\ (Qabs q <= max_float)%Q.
Proof.
  destruct x; cbn [finite]; try discriminate.
  intro H. exists q. split; [reflexivity | apply Qle_bool_iff; exact H].
Qed.

Lemma finite_not_nan (l : list sample) :
  Forall (fun x => finite x = true) l -> Forall (fun e => is_nan e = false) l.
Proof.
  apply Forall_impl. intros x H. destruct x; try discriminate H. reflexivity.
Qed.

(** ** Normalization (C5) *)

Lemma shift_props (q m : Q) :
  (m <= q)%Q ->
  let d := fsub (Fin q) (Fin m) in
  is_nan d = false /\ fleb (Fin 0) d = true /\
  (fleb d (Fin 0) = true <-> (q == m)%Q).
Proof.
  intros L d. subst d. cbn [fsub fopp fadd]. unfold overflow. cbv zeta.
  assert (R : (Qred (q + - m) == q - m)%Q) by (rewrite Qred_correct; ring).
  destruct (Qle_bool (Qabs (Qred (q + - m))) max_float) eqn:E.
  - cbn [is_nan fleb]. split; [reflexivity|]. split.
    + qprop. lra.
    + split; intro H; qprop; lra.
  - destruct (Qle_bool 0 (Qred (q + - m))) eqn:E0.
    + cbn [is_nan fleb]. split; [reflexivity|]. split; [reflexivity|].
      split; [discriminate|]. intro H. exfalso. qprop.
      rewrite Qabs_pos in E by lra. assert (M := max_float_pos). lra.
    + exfalso. qprop. lra.
Qed.

Lemma shift_fin (q m : Q) :
  (m <= q)%Q -> (q - m <= max_float)%Q ->
  fsub (Fin q) (Fin m) = Fin (Qred (q + - m)).
Proof.
  intros L B. cbn [fsub fopp fadd].
  apply (overflow_fin_between _ max_float); lra.
Qed.

Section Normalize.

Variable raw : farray.
Hypothesis nonempty : data raw <> [].
Hypothesis all_finite : Forall (fun x => finite x = true) (data raw).

Lemma raw_finite (x : sample) :
  In x (data raw) -> exists q, x = Fin q /\ (Qabs q <= max_float)%Q.
Proof.
  intro I. apply finite_fin.
  exact (proj1 (Forall_forall _ _) all_finite x I).
Qed.

Lemma amin_finite :
  exists m, amin raw = Ok (Fin m) /\ In (Fin m) (data raw) /\
    forall q, In (Fin q) (data raw) -> (m <= q)%Q.
Proof.
  destruct (amin_spec raw nonempty (finite_not_nan _ all_finite))
    as (x & E & I & F).
  rewrite Forall_forall in F.
  destruct (raw_finite x I) as (m & -> & _).
  exists m. split; [exact E|]. split; [exact I|].
  intros q Hq. specialize (F _ Hq). cbn [fleb] in F. qprop. exact F.
Qed.

Lemma amax_finite :
  exists m, amax raw = Ok (Fin m) /\ In (Fin m) (data raw) /\
    forall q, In (Fin q) (data raw) -> (q <= m)%Q.
Proof.
  destruct (amax_spec raw nonempty (finite_not_nan _ all_finite))
    as (x & E & I & F).
  rewrite Forall_forall in F.
  destruct (raw_finite x I) as (m & -> & _).
  exists m. split; [exact E|]. split; [exact I|].
  intros q Hq. specialize (F _ Hq). cbn [fleb] in F. qprop. exact F.
Qed.

Variable m : Q.
Hypothesis min_raw : amin raw = Ok (Fin m).

Lemma min_raw_props :
  In (Fin m) (data raw) /\ forall q, In (Fin q) (data raw) -> (m <= q)%Q.
Proof.
  destruct amin_finite as (m' & E & I & F).
  rewrite min_raw in E. injection E as <-. split; assumption.
Qed.

(** The image with the minimum subtracted. *)
Let shifted : farray := amap (fun x => fsub x (Fin m)) raw.

Lemma shifted_elem (d : sample) :
  In d (data shifted) ->
  exists q, In (Fin q) (data raw) /\ d = fsub (Fin q) (Fin m) /\ (m <= q)%Q.
Proof.
  intro I. apply in_map_iff in I. destruct I as (x & <- & Ix).
  destruct (raw_finite x Ix) as (q & -> & _).
  exists q. split; [exact Ix|]. split; [reflexivity|].
  apply min_raw_props. exact Ix.
Qed.

Lemma shifted_no_nan : Forall (fun e => is_nan e = false) (data shifted).
Proof.
  apply Forall_forall. intros d I.
  destruct (shifted_elem d I) as (q & _ & -> & L).
  apply (shift_props q m L).
Qed.

Lemma shifted_nonempty : data shifted <> [].
Proof.
  unfold shifted, amap. cbn [data]. destruct (data raw); [congruence|].
  discriminate.
Qed.

Lemma amin_shifted :
  exists b, amin shifted = Ok b /\ feqb b (Fin 0) = true.
Proof.
  destruct (amin_spec shifted shifted_nonempty shifted_no_nan)
    as (b & E & I & F).
  exists b. split; [exact E|].
  destruct (shifted_elem b I) as (q & _ & -> & L).
  apply fleb_antisym; [|apply (shift_props q m L)].
  destruct min_raw_props as [Im _].
  rewrite Forall_forall in F.
  apply (fleb_trans _ (fsub (Fin m) (Fin m))).
  - apply F. apply in_map_iff. exists (Fin m). split; [reflexivity | exact Im].
  - apply (shift_props m m (Qle_refl m)). reflexivity.
Qed.

Lemma amax_shifted :
  exists c, amax shifted = Ok c /\ In c (data shifted) /\
    Forall (fun e => fleb e c = true) (data shifted).
Proof. exact (amax_spec shifted shifted_nonempty shifted_no_nan). Qed.

(** The maximum of the shifted image is zero exactly when the image is
    constant. *)
Lemma amax_shifted_zero (c : sample) :
  amax shifted = Ok c -> (feqb c (Fin 0) = true <-> constant (data raw)).
Proof.
  intro E. destruct amax_shifted as (c' & E' & I & F).
  rewrite E in E'. injection E' as <-.
  rewrite Forall_forall in F. split.
  - intro Z.
    assert (A : forall q, In (Fin q) (data raw) -> (q == m)%Q).
    { intros q Iq. assert (L := proj2 min_raw_props q Iq).
      apply (shift_props q m L).
      apply (fleb_trans _ c); [|apply feqb_fleb; exact Z].
      apply F. apply in_map_iff. exists (Fin q). split; [reflexivity | exact Iq]. }
    intros x y Ix Iy.
    destruct (raw_finite x Ix) as (p & -> & _).
    destruct (raw_finite y Iy) as (q & -> & _).
    cbn [feqb]. qprop. rewrite (A p Ix), (A q Iy). reflexivity.
  - intro C.
    destruct (shifted_elem c I) as (q & Iq & -> & L).
    apply fleb_antisym; [|apply (shift_props q m L)].
    apply (shift_props q m L).
    specialize (C (Fin q) (Fin m) Iq (proj1 min_raw_props)).
    cbn [feqb] in C. qprop. exact C.
Qed.

End Normalize.

Lemma ratio_props (t c : Q) :
  (0 <= t)%Q -> (t <= c)%Q -> (0 < c)%Q ->
  exists r, fdiv (Fin t) (Fin c) = Fin r /\ (r == t / c)%Q /\
            (0 <= r)%Q /\ (r <= 1)%Q.
Proof.
  intros T0 Tc C0. cbn [fdiv].
  destruct (Qeq_bool c 0) eqn:E; [qprop; lra|].
  assert (L : (0 <= t / c)%Q) by (apply Qle_shift_div_l; lra).
  assert (U : (t / c <= 1)%Q) by (apply Qle_shift_div_r; lra).
  assert (M := max_float_pos).
  rewrite (overflow_fin_between (t / c) max_float) by lra.
  eexists. split; [reflexivity|]. rewrite Qred_correct.
  split; [reflexivity|]. split; assumption.
Qed.

(** C5, as amended: on a non-empty image of finite samples,
    [normalize_raw_image] raises "image is empty" exactly when the image is
    constant; when it is not constant and its range max - min does not
    overflow, the result is the image minus its minimum, divided by the new
    maximum, and its minimum is 0 and its maximum is 1. *)
Theorem normalize_raw_image_spec (raw : farray) :
  data raw <> [] ->
  Forall (fun x => finite x = true) (data raw) ->
  (Nlbin.normalize_raw_image raw = Raise (ValueError "image is empty")
   <-> constant (data raw)) /\
  (forall mn mx,
     amin raw = Ok (Fin mn) -> amax raw = Ok (Fin mx) ->
     ~ constant (data raw) -> (mx - mn <= max_float)%Q ->
     exists c out lo hi,
       amax (amap (fun x => fsub x (Fin mn)) raw) = Ok c /\
       Nlbin.normalize_raw_image raw = Ok out /\
       out = amap (fun x => fdiv (fsub x (Fin mn)) c) raw /\
       amin out = Ok lo /\ feqb lo (Fin 0) = true /\
       amax out = Ok hi /\ feqb hi (Fin 1) = true).
Proof.
  intros NE AF.
  destruct (amin_finite raw NE AF) as (m & Em & Im & Lm).
  destruct (amax_shifted raw NE AF m Em) as (c & Ec & Ic & Fc).
  destruct (amin_shifted raw NE AF m Em) as (b & Eb & Zb).
  assert (Z := amax_shifted_zero raw NE AF m Em c Ec).
  assert (N : Nlbin.normalize_raw_image raw =
              if feqb c b then Raise (ValueError "image is empty")
              else Ok (amap (fun x => fdiv (fsub x (Fin m)) c) raw)).
  { unfold Nlbin.normalize_raw_image. rewrite Em. cbn [bind]. cbv zeta.
    rewrite Ec, Eb. cbn [bind]. destruct (feqb c b); [reflexivity|].
    rewrite amap_amap. reflexivity. }
  assert (CB : feqb c b = feqb c (Fin 0)).
  { destruct (feqb c (Fin 0)) eqn:C0.
    - apply (feqb_trans _ (Fin 0)); [exact C0 | rewrite feqb_sym; exact Zb].
    - destruct (feqb c b) eqn:C1; [|reflexivity].
      rewrite <- C0. symmetry. apply (feqb_trans _ b); assumption. }
  rewrite CB in N. split.
  - rewrite N. destruct (feqb c (Fin 0)) eqn:C0.
    + split; [intros _; apply Z; reflexivity | reflexivity].
    + split; [discriminate|]. intro C. apply Z in C. discriminate C.
  - intros mn mx Emn Emx NC R.
    rewrite Em in Emn. injection Emn as <-.
    destruct (amax_finite raw NE AF) as (mx' & Emx' & Imx & Lmx).
    rewrite Emx in Emx'. injection Emx' as <-.
    (* every shifted sample is finite *)
    assert (S : forall q, In (Fin q) (data raw) ->
                fsub (Fin q) (Fin m) = Fin (Qred (q + - m)) /\
                (0 <= Qred (q + - m))%Q).
    { intros q Iq. specialize (Lm q Iq). specialize (Lmx q Iq).
      split; [apply shift_fin; lra | rewrite Qred_correct; lra]. }
    destruct (shifted_elem raw NE AF m Em c Ic) as (qc & Iqc & -> & Lqc).
    destruct (S qc Iqc) as [Sc Pc]. rewrite Sc in *.
    set (c' := Qred (qc + - m)) in *.
    assert (C0 : (0 < c')%Q).
    { destruct (feqb (Fin c') (Fin 0)) eqn:C0.
      - exfalso. apply NC, Z. reflexivity.
      - cbn [feqb] in C0. qprop. lra. }
    assert (G : forall q, In (Fin q) (data raw) ->
                exists r, fdiv (fsub (Fin q) (Fin m)) (Fin c') = Fin r /\
                  (r == Qred (q + - m) / c')%Q /\ (0 <= r)%Q /\ (r <= 1)%Q).
    { intros q Iq. destruct (S q Iq) as [Sq Pq]. rewrite Sq.
      apply ratio_props; [exact Pq | | exact C0].
      rewrite Forall_forall in Fc.
      assert (F := Fc (fsub (Fin q) (Fin m))). rewrite Sq in F.
      cbn [fleb] in F. apply Qle_bool_iff. apply F.
      apply in_map_iff. exists (Fin q). split; [exact Sq | exact Iq]. }
    set (out := amap (fun x => fdiv (fsub x (Fin m)) (Fin c')) raw).
    assert (Oe : forall y, In y (data out) ->
                 exists q r, In (Fin q) (data raw) /\ y = Fin r /\
                   (r == Qred (q + - m) / c')%Q /\ (0 <= r)%Q /\ (r <= 1)%Q).
    { intros y Iy. apply in_map_iff in Iy. destruct Iy as (x & <- & Ix).
      destruct (raw_finite raw AF x Ix) as (q & -> & _).
      destruct (G q Ix) as (r & Er & Hr).
      exists q, r. split; [exact Ix|]. split; [exact Er | exact Hr]. }
    assert (On : Forall (fun e => is_nan e = false) (data out)).
    { apply Forall_forall. intros y Iy.
      destruct (Oe y Iy) as (q & r & _ & -> & _). reflexivity. }
    assert (One : data out <> []).
    { unfold out, amap. cbn [data]. destruct (data raw); [congruence|].
      discriminate. }
    destruct (amin_spec out One On) as (lo & Elo & Ilo & Flo).
    destruct (amax_spec out One On) as (hi & Ehi & Ihi & Fhi).
    assert (C0b : feqb (Fin c') (Fin 0) = false)
      by (cbn [feqb]; qprop; lra).
    rewrite C0b in N.
    exists (Fin c'), out, lo, hi.
    split; [exact Ec|]. split; [exact N|].
    split; [reflexivity|]. split; [exact Elo|]. split; [|split; [exact Ehi|]].
    + destruct (Oe lo Ilo) as (q & r & _ & -> & _ & R0 & _).
      apply fleb_antisym; [|cbn [fleb]; qprop; exact R0].
      destruct (G m Im) as (r0 & Er0 & Hr0 & _).
      rewrite Forall_forall in Flo.
      assert (F := Flo (Fin r0)). cbn [fleb] in *.
      apply Qle_bool_iff.
      assert (F' : Qle_bool r r0 = true).
      { apply F. apply in_map_iff. exists (Fin m). split; [exact Er0 | exact Im]. }
      qprop. rewrite Hr0 in F'.
      assert (Z0 : (Qred (m + - m) / c' == 0)%Q).
      { rewrite Qred_correct. unfold Qdiv.
        setoid_replace (m + - m)%Q with 0%Q by ring. ring. }
      lra.
    + destruct (Oe hi Ihi) as (q & r & _ & -> & _ & _ & R1).
      apply fleb_antisym; [cbn [fleb]; qprop; exact R1|].
      destruct (G qc Iqc) as (r1 & Er1 & Hr1 & _).
      rewrite Forall_forall in Fhi.
      assert (F := Fhi (Fin r1)). cbn [fleb] in *.
      apply Qle_bool_iff.
      assert (F' : Qle_bool r1 r = true).
      { apply F. apply in_map_iff. exists (Fin qc). split; [exact Er1 | exact Iqc]. }
      qprop. rewrite Hr1 in F'. fold c' in F'.
      assert (Z1 : (c' / c' == 1)%Q) by (field; lra).
      lra.
Qed.

Lemma normalize_raw_image_example :
  exists out lo hi,
    Nlbin.normalize_raw_image example_page = Ok out /\
    amin out = Ok lo /\ feqb lo (Fin 0) = true /\
    amax out = Ok hi /\ feqb hi (Fin 1) = true.
Proof.
  assert (NE : data example_page <> []) by discriminate.
  assert (AF : Forall (fun x => finite x = true) (data example_page))
    by (repeat constructor; vm_compute; reflexivity).
  assert (E1 : amin example_page = Ok (Fin 0)) by (vm_compute; reflexivity).
  assert (E2 : amax example_page = Ok (Fin 255)) by (vm_compute; reflexivity).
  assert (NC : ~ constant (data example_page)).
  { intro C. specialize (C (Fin 200) (Fin 255)).
    assert (F : feqb (Fin 200) (Fin 255) = true)
      by (apply C; cbn; tauto).
    vm_compute in F. discriminate F. }
  assert (R : (255 - 0 <= max_float)%Q)
    by (apply Qle_bool_iff; vm_compute; reflexivity).
  destruct (proj2 (normalize_raw_image_spec example_page NE AF) 0%Q 255%Q
                    E1 E2 NC R)
    as (c & out & lo & hi & _ & N & _ & L & L0 & H & H1).
  exists out, lo, hi. repeat split; assumption.
Defined.

(** C5 as stated fails: the page of the two samples -max and +max is finite
    and not constant, but max - min overflows to infinity, the maximum is
    divided by itself to NaN, and the result has neither minimum 0 nor
    maximum 1. *)
Lemma normalize_raw_image_overflows :
  Forall (fun x => finite x = true) (data extreme_page) /\
  ~ constant (data extreme_page) /\
  Nlbin.normalize_raw_image extreme_page
    = Ok (mk_ndarray [1; 2]%nat [Fin 0; NaN]) /\
  amin (mk_ndarray [1; 2]%nat [Fin 0; NaN]) = Ok NaN /\
  amax (mk_ndarray [1; 2]%nat [Fin 0; NaN]) = Ok NaN.
Proof.
  split; [repeat constructor; vm_compute; reflexivity|].
  split.
  - intro C. specialize (C (Fin (- max_float)) (Fin max_float)).
    assert (F : feqb (Fin (- max_float)) (Fin max_float) = true)
      by (apply C; cbn; tauto).
    vm_compute in F. discriminate F.
  - repeat split; vm_compute; reflexivity.
Qed.

(** ** The range of the flattened image (C6) *)

Lemma in_firstn_skipn {A} (x : A) (n k : nat) (l : list A) :
  In x (firstn n (skipn k l)) -> In x l.
Proof.
  intro H. rewrite <- (firstn_skipn k l). apply in_or_app. right.
  rewrite <- (firstn_skipn n (skipn k l)). apply in_or_app. left. exact H.
Qed.

Lemma in_slice_rows {A} (x : A) (w : nat) (l : list A) (rs rn cs cn : nat) :
  In x (slice_rows w l rs rn cs cn) -> In x l.
Proof.
  unfold slice_rows. intro H. apply in_flat_map in H.
  destruct H as (i & _ & H). exact (in_firstn_skipn _ _ _ _ H).
Qed.

Lemma in_slice2 {A} (a r : ndarray A) (r0 r1 c0 c1 : Z) (x : A) :
  slice2 a r0 r1 c0 c1 = Ok r -> In x (data r) -> In x (data a).
Proof.
  unfold slice2. intro H. inv_bind H. destruct v as [h w].
  injection H as <-. cbn [data]. apply in_slice_rows.
Qed.



Lemma overflow_not_nan (x : Q) : is_nan (overflow x) = false.
Proof.
  unfold overflow. cbv zeta.
  destruct (Qle_bool (Qabs (Qred x)) max_float); [reflexivity|].
  destruct (Qle_bool 0 (Qred x)); reflexivity.
Qed.











(** ** Arrays in memory: what a stage writes (C9) *)

Module MemFacts.
Import Mem.

Lemma runs_ret n {A} (a : A) h (Q : A -> heap -> Prop) :
  Q a h -> runs n (ret a) h Q.
Proof.
  intros H _. cbn. split; [lia|]. split; [reflexivity|].
  intros b E. injection E as <-. exact H.
Qed.

Lemma runs_raise n {A} (e : exn) h (Q : A -> heap -> Prop) :
  runs n (raise e) h Q.
Proof.
  intros _. cbn. split; [lia|]. split; [reflexivity|]. discriminate.
Qed.

Lemma runs_lift n {A} (r : result A) h : runs n (lift r) h any.
Proof.
  intros _. cbn. split; [lia|]. split; [reflexivity|]. intros; exact I.
Qed.

Lemma runs_load n (r : aref) h : runs n (load r) h any.
Proof.
  intros _. cbn. split; [lia|]. split; [reflexivity|]. intros; exact I.
Qed.

Lemma runs_alloc n (a : farray) h : runs n (alloc a) h (fresh n).
Proof.
  intros L. cbn. rewrite length_app. cbn. split; [lia|]. split.
  - rewrite firstn_app. replace (n - length h)%nat with 0%nat by lia.
    cbn. apply app_nil_r.
  - intros l E. injection E as <-. unfold fresh. rewrite length_app. cbn. lia.
Qed.

Lemma length_replace_nth l f h : length (replace_nth l f h) = length h.
Proof.
  revert l. induction h as [|a h IH]; intros [|l]; cbn; try reflexivity.
  rewrite IH. reflexivity.
Qed.

Lemma firstn_replace_nth n l f h :
  (n <= l)%nat -> firstn n (replace_nth l f h) = firstn n h.
Proof.
  revert n l. induction h as [|a h IH]; intros [|n] [|l] L; cbn;
    try reflexivity; try lia.
  rewrite IH by lia. reflexivity.
Qed.

Lemma runs_update n l f h : (n <= l)%nat -> runs n (update l f) h any.
Proof.
  intros L _. cbn. rewrite length_replace_nth. split; [lia|].
  split; [apply firstn_replace_nth; exact L|]. intros; exact I.
Qed.

Lemma runs_bind n {A B} (m : M A) (k : A -> M B) h
    (Q : A -> heap -> Prop) (Q' : B -> heap -> Prop) :
  runs n m h Q ->
  (forall a h1, Q a h1 -> (length h <= length h1)%nat -> runs n (k a) h1 Q') ->
  runs n (mbind m k) h Q'.
Proof.
  intros Hm Hk L. destruct (Hm L) as (L1 & F1 & Q1).
  unfold mbind. destruct (m h) as [[a|e] h1]; cbn [fst snd] in *.
  - destruct (Hk a h1 (Q1 a eq_refl) L1 ltac:(lia)) as (L2 & F2 & Q2).
    split; [lia|]. split; [congruence | exact Q2].
  - split; [exact L1|]. split; [exact F1 | discriminate].
Qed.

Lemma runs_weaken n {A} (m : M A) h (Q Q' : A -> heap -> Prop) :
  runs n m h Q -> (forall a h', Q a h' -> Q' a h') -> runs n m h Q'.
Proof.
  intros Hm W L. destruct (Hm L) as (L1 & F1 & Q1).
  split; [exact L1|]. split; [exact F1|]. intros a E. apply W, Q1, E.
Qed.

Lemma runs_for_each n {A B} (f : A -> M B) (l : list A) h :
  (forall x h', runs n (f x) h' any) -> runs n (for_each f l) h any.
Proof.
  intro Hf. revert h. induction l as [|x l IH]; intro h; cbn [for_each].
  - apply runs_ret. exact I.
  - eapply runs_bind; [apply Hf|]. intros y h1 _ _.
    eapply runs_bind; [apply IH|]. intros ys h2 _ _.
    apply runs_ret. exact I.
Qed.

(** One step of a computation: a bind whose first part is a known
    operation, a return, an exception or a branch. *)
Ltac run_any :=
  first
    [ apply runs_lift | apply runs_load | apply runs_raise
    | apply runs_ret; exact I
    | eapply runs_weaken; [apply runs_alloc | intros; exact I] ].

Lemma runs_np_shape n r h : runs n (np_shape r) h any.
Proof.
  unfold np_shape. eapply runs_bind; [apply runs_load|]. intros.
  apply runs_ret. exact I.
Qed.

Lemma runs_np_amin n r h : runs n (np_amin r) h any.
Proof.
  unfold np_amin. eapply runs_bind; [apply runs_load|]. intros.
  apply runs_lift.
Qed.

Lemma runs_np_amax n r h : runs n (np_amax r) h any.
Proof.
  unfold np_amax. eapply runs_bind; [apply runs_load|]. intros.
  apply runs_lift.
Qed.

Lemma runs_np_map n f r h : runs n (np_map f r) h (fresh n).
Proof.
  unfold np_map. eapply runs_bind; [apply runs_load|]. intros.
  apply runs_alloc.
Qed.

Lemma runs_np_zip n f r1 r2 h : runs n (np_zip f r1 r2) h (fresh n).
Proof.
  unfold np_zip. eapply runs_bind; [apply runs_load|]. intros.
  eapply runs_bind; [apply runs_load|]. intros.
  eapply runs_bind; [apply runs_lift|]. intros.
  apply runs_alloc.
Qed.

Lemma runs_np_imap n f l h : (n <= l)%nat -> runs n (np_imap f l) h any.
Proof. apply runs_update. Qed.

Lemma runs_np_slice n r r0 r1 c0 c1 h : runs n (np_slice r r0 r1 c0 c1) h any.
Proof.
  unfold np_slice. cbv zeta. eapply runs_bind; [apply runs_load|]. intros.
  apply runs_ret. exact I.
Qed.

Section Pipeline.

Variable P : Prims.

Lemma runs_ndimage_zoom n r z h : runs n (ndimage_zoom P r z) h (fresh n).
Proof.
  unfold ndimage_zoom. eapply runs_bind; [apply runs_load|]. intros.
  eapply runs_bind; [apply runs_lift|]. intros. apply runs_alloc.
Qed.

Lemma runs_percentile_filter n r p s h :
  runs n (percentile_filter P r p s) h (fresh n).
Proof.
  unfold percentile_filter. eapply runs_bind; [apply runs_load|]. intros.
  apply runs_alloc.
Qed.

Lemma runs_rotate n r a o b h : runs n (rotate P r a o b) h (fresh n).
Proof.
  unfold rotate. eapply runs_bind; [apply runs_load|]. intros.
  eapply runs_bind; [apply runs_lift|]. intros. apply runs_alloc.
Qed.

Lemma runs_gaussian_filter n r s h :
  runs n (gaussian_filter P r s) h (fresh n).
Proof.
  unfold gaussian_filter. eapply runs_bind; [apply runs_load|]. intros.
  apply runs_alloc.
Qed.

(** One statement of a stage: a bind whose first part is one of the
    operations above. *)
Ltac run_op :=
  first
    [ apply runs_np_shape | apply runs_np_amin | apply runs_np_amax
    | apply runs_np_map | apply runs_np_zip | apply runs_np_slice
    | apply runs_ndimage_zoom | apply runs_percentile_filter
    | apply runs_rotate | apply runs_gaussian_filter
    | apply runs_lift | apply runs_load | apply runs_alloc
    | apply runs_np_imap; unfold fresh in *; lia ].

Ltac run_step :=
  eapply runs_bind; [run_op | intros; cbv beta];
  try match goal with
      | |- runs _ (match ?x with _ => _ end) _ _ => destruct x
      end.

Ltac run_end :=
  first [ apply runs_raise
        | apply runs_ret; unfold fresh, any in *; cbn [fst snd];
          first [exact I | lia] ].

Lemma runs_normalize_raw_image n raw h :
  runs n (normalize_raw_image raw) h (fresh n).
Proof.
  unfold normalize_raw_image. do 4 run_step; [run_end|].
  do 2 run_step. run_end.
Qed.

Lemma runs_estimate_local_whitelevel n image zoom perc range h :
  runs n (estimate_local_whitelevel P image zoom perc range) h (fresh n).
Proof.
  unfold estimate_local_whitelevel. do 12 run_step.
  eapply runs_weaken; [run_op|]. unfold fresh. intros; lia.
Qed.

Lemma runs_estimate_skew_angle n image angles h :
  runs n (estimate_skew_angle P image angles) h any.
Proof.
  unfold estimate_skew_angle.
  eapply runs_bind.
  - apply runs_for_each. intros a h'. do 3 run_step. run_end.
  - intros. run_step. run_end.
Qed.

Lemma runs_estimate_skew n flat bignore maxskew skewsteps h :
  runs n (estimate_skew P flat bignore maxskew skewsteps) h
       (fun r h' => fresh n (fst r) h').
Proof.
  unfold estimate_skew. do 10 run_step.
  eapply runs_bind; [apply runs_estimate_skew_angle | intros].
  do 3 run_step. run_end.
Qed.

Lemma runs_text_mask n est escale h : runs n (text_mask P est escale) h any.
Proof. unfold text_mask. cbv zeta. do 9 run_step. run_end. Qed.

Lemma runs_estimate_thresholds n flat bignore escale lo hi h :
  runs n (estimate_thresholds P flat bignore escale lo hi) h any.
Proof.
  unfold estimate_thresholds. do 5 run_step.
  apply (runs_bind _ _ _ _ any).
  - destruct (fgtb escale (Fin 0)).
    + eapply runs_bind; [apply runs_text_mask | intros].
      do 2 run_step. apply runs_ret. exact I.
    + apply runs_ret. exact I.
  - intros. do 3 run_step. run_end.
Qed.

Lemma runs_nlbin n raw args h : runs n (nlbin P raw args) h (fresh n).
Proof.
  unfold nlbin.
  eapply runs_bind; [apply runs_normalize_raw_image | intros].
  eapply runs_bind; [apply runs_estimate_local_whitelevel | intros].
  eapply runs_bind; [apply runs_estimate_skew | intros [flat angle]; intros].
  eapply runs_bind; [apply runs_estimate_thresholds | intros [lo hi]; intros].
  cbn [fst] in *. do 2 run_step.
  eapply runs_weaken; [run_op|]. unfold fresh. intros; lia.
Qed.

End Pipeline.

(** What [runs] says of the whole heap a computation starts from. *)
Lemma runs_unchanged {A} (m : M A) (h : heap) (Q : A -> heap -> Prop) :
  runs (length h) m h Q ->
  unchanged h (snd (m h)) /\ forall a, fst (m h) = Ok a -> Q a (snd (m h)).
Proof.
  intro R. destruct (R (le_n _)) as (L & F & HQ). split; [|exact HQ].
  intros l a E. rewrite firstn_all in F.
  rewrite <- (firstn_skipn (length h) (snd (m h))), F.
  rewrite nth_error_app1; [exact E|].
  apply nth_error_Some. congruence.
Qed.

End MemFacts.

(** C9: run on any heap and any array of it, [normalize_raw_image],
    [estimate_local_whitelevel], [estimate_skew], [estimate_thresholds] and
    [nlbin] leave every array of the heap as it was, the one passed to them
    included; the array each returns was allocated during the call. *)
Theorem stages_leave_arrays_unchanged (P : Prims) (h : Mem.heap) (x : Mem.aref) :
  (let r := Mem.normalize_raw_image x h in
   Mem.unchanged h (snd r) /\
   forall l, fst r = Ok l -> Mem.fresh (length h) l (snd r)) /\
  (forall zoom perc range,
   let r := Mem.estimate_local_whitelevel P x zoom perc range h in
   Mem.unchanged h (snd r) /\
   forall l, fst r = Ok l -> Mem.fresh (length h) l (snd r)) /\
  (forall bignore maxskew skewsteps,
   let r := Mem.estimate_skew P x bignore maxskew skewsteps h in
   Mem.unchanged h (snd r) /\
   forall l angle, fst r = Ok (l, angle) -> Mem.fresh (length h) l (snd r)) /\
  (forall bignore escale lo hi,
   let r := Mem.estimate_thresholds P x bignore escale lo hi h in
   Mem.unchanged h (snd r)) /\
  (forall args,
   let r := Mem.nlbin P x args h in
   Mem.unchanged h (snd r) /\
   forall l, fst r = Ok l -> Mem.fresh (length h) l (snd r)).
Proof.
  split; [|split; [|split; [|split]]].
  - exact (MemFacts.runs_unchanged _ _ _
             (MemFacts.runs_normalize_raw_image _ x h)).
  - intros zoom perc range.
    exact (MemFacts.runs_unchanged _ _ _
             (MemFacts.runs_estimate_local_whitelevel P _ x zoom perc range h)).
  - intros bignore maxskew skewsteps.
    destruct (MemFacts.runs_unchanged _ _ _
                (MemFacts.runs_estimate_skew P _ x bignore maxskew skewsteps h))
      as [U F].
    split; [exact U|]. intros l angle E. exact (F _ E).
  - intros bignore escale lo hi.
    exact (proj1 (MemFacts.runs_unchanged _ _ _
             (MemFacts.runs_estimate_thresholds P _ x bignore escale lo hi h))).
  - intro args.
    exact (MemFacts.runs_unchanged _ _ _ (MemFacts.runs_nlbin P _ x args h)).
Qed.

(** ** Validation (C2) *)

Lemma check_page_color (a : farray) :
  length (shape a) = 3%nat ->
  Nlbin.check_page a = Raise (ValueError "input image is color image").
Proof. intro H. unfold Nlbin.check_page. rewrite H. reflexivity. Qed.

Lemma check_page_500x800 (a : farray) :
  shape a = [500; 800]%nat ->
  Nlbin.check_page a = Raise (ValueError "image may be inverted") \/
  Nlbin.check_page a
    = Raise (ValueError "image not tall enough for a page image").
Proof.
  intro H. unfold Nlbin.check_page. rewrite H.
  cbn [length Nat.eqb].
  destruct (fltb (mean (data a)) (median (data a))).
  - left. reflexivity.
  - right. cbn [unpack2 bind].
    replace (Z.of_nat 500 <? 600) with true by (symmetry; apply Z.ltb_lt; lia).
    reflexivity.
Qed.

(** C2 fails on the code: [check_page] rejects a color image and a 500x800
    image, but [nlbin] never calls it and does not read [nocheck]: its
    result is the same with validation enabled or disabled, and it returns
    an image for a page that [check_page] rejects for its size. *)
Theorem nlbin_runs_without_check_page :
  (forall a, length (shape a) = 3%nat ->
     Nlbin.check_page a = Raise (ValueError "input image is color image")) /\
  (forall a, shape a = [500; 800]%nat -> Nlbin.check_page a <> Ok tt) /\
  (forall P raw args b,
     Nlbin.nlbin P raw args =
     Nlbin.nlbin P raw
       (mk_Args b (threshold args) (zoom args) (escale args) (bignore args)
          (perc args) (range args) (maxskew args) (gray args) (lo args)
          (hi args) (skewsteps args))) /\
  Nlbin.check_page dark_page
    = Raise (ValueError "image not tall enough for a page image") /\
  nocheck example_args = false /\
  exists out, Nlbin.nlbin example_prims dark_page example_args = Ok out.
Proof.
  split; [exact check_page_color|]. split.
  { intros a H. destruct (check_page_500x800 a H) as [E|E]; rewrite E;
      discriminate. }
  split; [reflexivity|]. split; [vm_compute; reflexivity|].
  split; [reflexivity|].
  destruct (Nlbin.nlbin example_prims dark_page example_args)
    as [out|e] eqn:E; [|vm_compute in E; discriminate E].
  exists out. reflexivity.
Qed.

(** ** Equal thresholds: the NaN of C1, whatever the filters compute *)

Lemma in_insert_sorted (x y : sample) (l : list sample) :
  In y (insert_sorted x l) <-> y = x \/ In y l.
Proof.
  induction l as [|z l IH]; cbn [insert_sorted].
  - cbn. intuition congruence.
  - destruct (sort_le x z); cbn [In].
    + intuition congruence.
    + rewrite IH. intuition congruence.
Qed.

Lemma in_sort (y : sample) (l : list sample) : In y (sort l) <-> In y l.
Proof.
  unfold sort. induction l as [|x l IH]; cbn [fold_right].
  - reflexivity.
  - rewrite in_insert_sorted, IH. cbn. intuition congruence.
Qed.

Lemma sort_nonempty (l : list sample) : l <> [] -> sort l <> [].
Proof.
  destruct l as [|x l]; [congruence|]. intros _ E.
  assert (I : In x (sort (x :: l))) by (apply in_sort; left; reflexivity).
  rewrite E in I. exact I.
Qed.

Lemma overflow_fin_eq (x q : Q) : overflow x = Fin q -> (q == x)%Q.
Proof.
  unfold overflow. cbv zeta.
  destruct (Qle_bool (Qabs (Qred x)) max_float).
  - intro E. injection E as <-. apply Qred_correct.
  - destruct (Qle_bool 0 (Qred x)); discriminate.
Qed.

Lemma overflow_zero (x : Q) : (x == 0)%Q -> overflow x = Fin 0.
Proof.
  intro H. assert (M := max_float_pos).
  rewrite (overflow_fin_between x 1) by lra.
  f_equal. exact (Qred_complete _ _ H).
Qed.

(** The percentile 0 of a non-empty array is its least sample, times one
    and divided by one. *)
Lemma scoreatpercentile_zero (l : list sample) :
  l <> [] ->
  exists s, In s l /\
    scoreatpercentile l (Fin 0) = Ok (fdiv (fmul s (Fin 1)) (Fin 1)).
Proof.
  intro NE. exists (nth 0 (sort l) NaN). split.
  - apply in_sort. destruct (sort l) as [|s t] eqn:E.
    + exfalso. exact (sort_nonempty l NE E).
    + left. reflexivity.
  - unfold scoreatpercentile. destruct l as [|x l]; [congruence|].
    change (fleb (Fin 0) (Fin 0) && fleb (Fin 0) (Fin 100)) with true.
    cbn [negb].
    assert (D : fdiv (Fin 0) (Fin 100) = Fin 0) by (vm_compute; reflexivity).
    rewrite D. unfold of_nat. cbn [fmul].
    rewrite overflow_zero by ring.
    reflexivity.
Qed.

(** The sample equal to both thresholds is stretched to NaN. *)
Lemma stretch_at_threshold (s : sample) :
  let t := fdiv (fmul s (Fin 1)) (Fin 1) in
  is_nan (clip (fdiv (fsub s t) (fsub t t)) (Fin 0) (Fin 1)) = true.
Proof.
  cbv zeta. rewrite clip_nan.
  destruct s as [| | |q]; try reflexivity.
  cbn [fmul].
  destruct (overflow (q * 1)) as [| | |q1] eqn:E1; try reflexivity.
  apply overflow_fin_eq in E1.
  cbn [fdiv]. change (Qeq_bool 1 0) with false. cbv iota.
  destruct (overflow (q1 / 1)) as [| | |q2] eqn:E2; try reflexivity.
  apply overflow_fin_eq in E2.
  cbn [fsub fopp fadd].
  rewrite (overflow_zero (q + - q2)) by (rewrite E2, E1; field).
  rewrite (overflow_zero (q2 + - q2)) by ring.
  reflexivity.
Qed.

Lemma stretch_nan_threshold (x h : sample) :
  is_nan (clip (fdiv (fsub x NaN) h) (Fin 0) (Fin 1)) = true.
Proof. destruct x; reflexivity. Qed.

(** X3: with no text mask ([escale <= 0]) and both thresholds at the
    percentile 0, every image [nlbin] returns has a NaN sample, whatever the
    page and whatever the scipy primitives compute: the two thresholds are
    the same sample of the region, and that sample is stretched to 0 / 0. *)
Theorem equal_percentiles_give_nan (P : Prims) (raw : farray) (args : Args)
    (out : farray) :
  fgtb (escale args) (Fin 0) = false ->
  lo args = Fin 0 -> hi args = Fin 0 ->
  Nlbin.nlbin P raw args = Ok out ->
  exists y, In y (data out) /\ is_nan y = true.
Proof.
  intros Ge L0 H0 H.
  destruct (nlbin_ok _ _ _ _ H) as (flat & angle & l & h & D & T & ->).
  rewrite stretch_spec.
  (* the deskewed image is not empty *)
  assert (NE : exists x, In x (data flat)).
  { unfold Nlbin.deskewed in D. inv_bind D. inv_bind D.
    unfold Nlbin.estimate_skew in D.
    inv_bind D. destruct v1 as [d0 d1]. do 8 inv_bind D. inv_bind D.
    injection D as <- _. cbn [amap data].
    match goal with
    | E : amax ?a = Ok _ |- _ =>
        unfold amax, reduce in E; destruct (data a) as [|x t];
          [discriminate E|]
    end.
    eexists. left. reflexivity. }
  unfold Nlbin.estimate_thresholds in T.
  inv_bind T. destruct v as [d0 d1]. inv_bind T. inv_bind T. inv_bind T.
  rename v1 into est. rewrite Ge, L0, H0 in T. cbn [bind] in T.
  destruct (data est) as [|e t] eqn:Eest.
  - cbn [scoreatpercentile bind] in T. injection T as <- <-.
    destruct NE as (x & Ix). exists (clip (fdiv (fsub x NaN) NaN) (Fin 0) (Fin 1)).
    split; [|apply stretch_nan_threshold].
    cbn [amap data]. apply in_map_iff. exists x. split; [reflexivity | exact Ix].
  - destruct (scoreatpercentile_zero (e :: t) ltac:(discriminate))
      as (s & Is & Es).
    rewrite Es in T. cbn [bind] in T. injection T as <- <-.
    exists (clip (fdiv (fsub s (fdiv (fmul s (Fin 1)) (Fin 1)))
                       (fsub (fdiv (fmul s (Fin 1)) (Fin 1))
                             (fdiv (fmul s (Fin 1)) (Fin 1))))
                 (Fin 0) (Fin 1)).
    split; [|apply stretch_at_threshold].
    cbn [amap data]. apply in_map_iff. exists s. split; [reflexivity|].
    rewrite <- Eest in Is.
    match goal with
    | E : Nlbin.crop_border _ _ _ _ _ = Ok est |- _ =>
        exact (in_slice2 _ _ _ _ _ _ _ E Is)
    end.
Qed.

Lemma equal_percentiles_give_nan_example :
  exists out,
    Nlbin.nlbin example_prims example_page equal_percentile_args = Ok out /\
    exists y, In y (data out) /\ is_nan y = true.
Proof.
  destruct (Nlbin.nlbin example_prims example_page equal_percentile_args)
    as [out|e] eqn:E; [|vm_compute in E; discriminate E].
  exists out. split; [reflexivity|].
  exact (equal_percentiles_give_nan example_prims example_page
           equal_percentile_args out eq_refl eq_refl eq_refl E).
Defined.

(** ** Arrays in memory: what a stage computes

    Each stage of the module with its arrays in memory computes the value
    the stage on values computes, in a newly allocated array. *)

Module MemExec.
Import Mem.

Lemma extends_refl h : extends h h.
Proof. exists []. symmetry. apply app_nil_r. Qed.

Lemma extends_app h t : extends h (h ++ t).
Proof. exists t. reflexivity. Qed.

Lemma extends_trans h1 h2 h3 : extends h1 h2 -> extends h2 h3 -> extends h1 h3.
Proof.
  intros [t ->] [u ->]. exists (t ++ u). symmetry. apply app_assoc.
Qed.

Lemma loads_extends h h' x a : loads h x a -> extends h h' -> loads h' x a.
Proof.
  intros [L E] [t ->]. split.
  - rewrite length_app. lia.
  - rewrite app_nth1 by exact L. exact E.
Qed.

Lemma loads_new h a : loads (h ++ [a]) (Whole (length h)) a.
Proof.
  split; cbn [Whole base windows through].
  - rewrite length_app. cbn. lia.
  - rewrite nth_middle. reflexivity.
Qed.

Lemma load_eq h x a : loads h x a -> load x h = (Ok a, h).
Proof. intros [_ E]. unfold load. rewrite E. reflexivity. Qed.

(** Running a bind whose first part is known. *)
Lemma mbind_run {A B} (m : M A) (k : A -> M B) h r h' :
  m h = (r, h') ->
  mbind m k h = match r with Ok a => k a h' | Raise e => (Raise e, h') end.
Proof. intro E. unfold mbind. rewrite E. destruct r; reflexivity. Qed.

Lemma np_shape_eq h x a : loads h x a -> np_shape x h = (Ok (shape a), h).
Proof.
  intro L. unfold np_shape. rewrite (mbind_run _ _ _ _ _ (load_eq _ _ _ L)).
  reflexivity.
Qed.

Lemma np_amin_eq h x a : loads h x a -> np_amin x h = (amin a, h).
Proof.
  intro L. unfold np_amin. rewrite (mbind_run _ _ _ _ _ (load_eq _ _ _ L)).
  reflexivity.
Qed.

Lemma np_amax_eq h x a : loads h x a -> np_amax x h = (amax a, h).
Proof.
  intro L. unfold np_amax. rewrite (mbind_run _ _ _ _ _ (load_eq _ _ _ L)).
  reflexivity.
Qed.

Lemma np_map_eq h x a f :
  loads h x a -> np_map f x h = (Ok (length h), h ++ [amap f a]).
Proof.
  intro L. unfold np_map. rewrite (mbind_run _ _ _ _ _ (load_eq _ _ _ L)).
  reflexivity.
Qed.

Lemma np_zip_eq h x y a b f :
  loads h x a -> loads h y b ->
  np_zip f x y h =
  match azip f a b with
  | Ok c => (Ok (length h), h ++ [c])
  | Raise e => (Raise e, h)
  end.
Proof.
  intros La Lb. unfold np_zip.
  rewrite (mbind_run _ _ _ _ _ (load_eq _ _ _ La)).
  rewrite (mbind_run _ _ _ _ _ (load_eq _ _ _ Lb)).
  unfold mbind, lift. destruct (azip f a b); reflexivity.
Qed.

Lemma replace_nth_middle u v w f :
  replace_nth (length u) f (u ++ v :: w) = u ++ f v :: w.
Proof. induction u as [|a u IH]; cbn; [|rewrite IH]; reflexivity. Qed.

Lemma np_imap_eq u v w f :
  np_imap f (length u) (u ++ v :: w) = (Ok tt, u ++ amap f v :: w).
Proof. unfold np_imap, update. rewrite replace_nth_middle. reflexivity. Qed.

Lemma through_app ws w a :
  through (ws ++ [w]) a =
  (b <- through ws a ;; let '(r0, r1, c0, c1) := w in slice2 b r0 r1 c0 c1).
Proof.
  revert a. induction ws as [|[[[r0 r1] c0] c1] ws IH]; intro a;
    cbn [app through].
  - destruct w as [[[r0 r1] c0] c1]. cbn [bind].
    destruct (slice2 a r0 r1 c0 c1); reflexivity.
  - destruct (slice2 a r0 r1 c0 c1) as [b|e]; cbn [bind]; [apply IH | reflexivity].
Qed.

Lemma np_slice_eq h x a r0 r1 c0 c1 :
  loads h x a ->
  np_slice x r0 r1 c0 c1 h =
  (match slice2 a r0 r1 c0 c1 with
   | Ok _ => Ok (mk_aref (base x) (windows x ++ [(r0, r1, c0, c1)]))
   | Raise e => Raise e
   end, h) /\
  forall b, slice2 a r0 r1 c0 c1 = Ok b ->
    loads h (mk_aref (base x) (windows x ++ [(r0, r1, c0, c1)])) b.
Proof.
  intros [L E].
  assert (T : through (windows x ++ [(r0, r1, c0, c1)])
                (nth (base x) h empty_array) = slice2 a r0 r1 c0 c1).
  { rewrite through_app, E. reflexivity. }
  split.
  - unfold np_slice. cbv zeta. unfold mbind, load. cbn [base windows].
    rewrite T. destruct (slice2 a r0 r1 c0 c1); reflexivity.
  - intros b Eb. split; cbn [base windows]; [exact L|]. rewrite T. exact Eb.
Qed.

Ltac run lem := rewrite (mbind_run _ _ _ _ _ lem); cbn [bind].

(** The same when the first part succeeds or fails as a value [r] does:
    the two cases of [r]. *)
Ltac run_case lem :=
  let E := fresh "E" in
  pose proof lem as E;
  match type of E with
  | _ = match ?r with _ => _ end => destruct r; cbn [bind] in *
  end;
  rewrite (mbind_run _ _ _ _ _ E); clear E.

Ltac ext :=
  repeat first [ apply extends_refl
               | assumption
               | eapply extends_trans; [|apply extends_app] ].

(** The end of a run: the heap reached is the witness. *)
Ltac done := eexists; split; [|reflexivity]; ext.

Lemma lift_eq {A} (r : result A) h : lift r h = (r, h).
Proof. reflexivity. Qed.

(** A step that only computes a value [r]: the two cases of [r]. *)
Ltac run_lift :=
  match goal with
  | |- context [mbind (lift ?r) ?k ?h] =>
      rewrite (mbind_run (lift r) k h r h eq_refl); destruct r; cbn [bind]
  end.

Lemma exec_array_intro (m : M loc) h (r : result farray) :
  (exists h', extends h h' /\
     m h = (match r with Ok _ => Ok (length h') | Raise e => Raise e end,
            match r with Ok out => h' ++ [out] | Raise _ => h' end)) ->
  exec_array m h r.
Proof.
  intros (h' & X & E). exists h'. split; [exact X|]. destruct r; exact E.
Qed.

Lemma loads_middle u v w : loads (u ++ v :: w) (Whole (length u)) v.
Proof.
  split; cbn [Whole base windows through].
  - rewrite length_app. cbn. lia.
  - rewrite nth_middle. reflexivity.
Qed.

Lemma exec_normalize_raw_image h x a :
  loads h x a ->
  exec_array (normalize_raw_image x) h (Nlbin.normalize_raw_image a).
Proof.
  intro L. apply exec_array_intro.
  unfold normalize_raw_image, Nlbin.normalize_raw_image.
  run (np_amin_eq _ _ _ L).
  destruct (amin a) as [mn|e]; cbn [bind]; [|done].
  run (np_map_eq _ _ _ (fun x => fsub x mn) L). cbv zeta.
  set (image := amap (fun x => fsub x mn) a).
  assert (Li := loads_new h image).
  run (np_amax_eq _ _ _ Li).
  destruct (amax image) as [mx|e] eqn:Emx; cbn [bind]; [|done].
  run (np_amin_eq _ _ _ Li).
  destruct (amin image) as [b|e]; cbn [bind]; [|done].
  destruct (feqb mx b); [unfold raise; done|].
  run (np_amax_eq _ _ _ Li). rewrite Emx. cbn [bind].
  run (np_imap_eq h image [] (fun x => fdiv x mx)).
  unfold ret. exists h. split; [apply extends_refl | reflexivity].
Qed.

Section Pipeline.

Variable P : Prims.

Lemma ndimage_zoom_eq h x a z :
  loads h x a ->
  ndimage_zoom P x z h =
  match Nlbin.ndimage_zoom P a z with
  | Ok m => (Ok (length h), h ++ [m])
  | Raise e => (Raise e, h)
  end.
Proof.
  intro L. unfold ndimage_zoom. run (load_eq _ _ _ L).
  unfold mbind, lift. destruct (Nlbin.ndimage_zoom P a z); reflexivity.
Qed.

Lemma percentile_filter_eq h x a p s :
  loads h x a ->
  percentile_filter P x p s h =
  (Ok (length h), h ++ [Nlbin.percentile_filter P a p s]).
Proof.
  intro L. unfold percentile_filter. run (load_eq _ _ _ L). reflexivity.
Qed.

Lemma rotate_eq h x a angle order reshape :
  loads h x a ->
  rotate P x angle order reshape h =
  match Nlbin.rotate P a angle order reshape with
  | Ok m => (Ok (length h), h ++ [m])
  | Raise e => (Raise e, h)
  end.
Proof.
  intro L. unfold rotate. run (load_eq _ _ _ L).
  unfold mbind, lift. destruct (Nlbin.rotate P a angle order reshape);
    reflexivity.
Qed.

Lemma gaussian_filter_eq h x a sigma :
  loads h x a ->
  gaussian_filter P x sigma h =
  (Ok (length h), h ++ [Nlbin.gaussian_filter P a sigma]).
Proof.
  intro L. unfold gaussian_filter. run (load_eq _ _ _ L). reflexivity.
Qed.

Lemma exec_estimate_local_whitelevel h x a zoom perc range :
  loads h x a ->
  exec_array (estimate_local_whitelevel P x zoom perc range) h
    (Nlbin.estimate_local_whitelevel P a zoom perc range).
Proof.
  intro L. apply exec_array_intro.
  unfold estimate_local_whitelevel,
    Nlbin.estimate_local_whitelevel, Nlbin.whitelevel.
  run_case (ndimage_zoom_eq _ _ _ zoom L); [|done].
  rename a0 into m1.
  run (percentile_filter_eq _ _ _ perc (range, 2) (loads_new h m1)).
  set (m2 := Nlbin.percentile_filter P m1 perc (range, 2)).
  run (percentile_filter_eq _ _ _ perc (2, range) (loads_new (h ++ [m1]) m2)).
  set (m3 := Nlbin.percentile_filter P m2 perc (2, range)).
  run_lift; [|done]. rename a0 into z.
  run_case (ndimage_zoom_eq _ _ _ z (loads_new ((h ++ [m1]) ++ [m2]) m3));
    [|done].
  rename a0 into m4.
  set (h4 := ((h ++ [m1]) ++ [m2]) ++ [m3]).
  assert (X4 : extends h (h4 ++ [m4])) by (unfold h4; ext).
  assert (L4 := loads_extends _ _ _ _ L X4).
  assert (M4 := loads_new h4 m4).
  run (np_shape_eq _ _ _ L4). run (np_shape_eq _ _ _ M4).
  run_lift; [|done]. destruct a0 as [w0 h0].
  destruct (np_slice_eq _ _ _ 0 (Z.of_nat w0) 0 (Z.of_nat h0) L4) as [Ea La].
  run Ea. clear Ea.
  destruct (slice2 a 0 (Z.of_nat w0) 0 (Z.of_nat h0)) as [av|e]; cbn [bind];
    [|done].
  specialize (La av eq_refl).
  destruct (np_slice_eq _ _ _ 0 (Z.of_nat w0) 0 (Z.of_nat h0) M4) as [Eb Lb].
  run Eb. clear Eb.
  destruct (slice2 m4 0 (Z.of_nat w0) 0 (Z.of_nat h0)) as [bv|e]; cbn [bind];
    [|done].
  specialize (Lb bv eq_refl).
  run_case (np_zip_eq _ _ _ _ _ fsub La Lb); [|done].
  rename a0 into d.
  run (np_map_eq _ _ _ (fun x => fadd x (Fin 1)) (loads_new (h4 ++ [m4]) d)).
  eexists. split.
  2: { etransitivity.
       - exact (np_map_eq _ _ _ (fun x => clip x (Fin 0) (Fin 1))
                  (loads_new ((h4 ++ [m4]) ++ [d])
                     (amap (fun x => fadd x (Fin 1)) d))).
       - rewrite amap_amap. reflexivity. }
  unfold h4. ext.
Qed.

Lemma mbind_assoc {A B C} (m : M A) (k : A -> M B) (k' : B -> M C) h :
  mbind (mbind m k) k' h = mbind m (fun x => mbind (k x) k') h.
Proof. unfold mbind. destruct (m h) as [[a|e] h']; reflexivity. Qed.

(** The search loop: one rotated array is allocated for every angle. *)
Lemma for_each_rotations h x a angles :
  loads h x a ->
  exec_value
    (for_each (fun a0 =>
                 r <~ rotate P x a0 0 true ;;
                 m <~ load (Whole r) ;;
                 v <~ lift (mean_axis1 m) ;;
                 ret (var v, a0)) angles) h
    (mapM (fun a0 => v <- Nlbin.row_variance P a a0 ;; Ok (v, a0)) angles).
Proof.
  unfold exec_value.
  revert h. induction angles as [|a0 angles IH]; intros h L.
  - exists h. split; [apply extends_refl | reflexivity].
  - cbn [for_each mapM]. unfold Nlbin.row_variance.
    rewrite mbind_assoc.
    run_case (rotate_eq _ _ _ a0 0%nat true L); [|done].
    rename a1 into m.
    rewrite mbind_assoc.
    run (load_eq _ _ _ (loads_new h m)).
    rewrite mbind_assoc.
    run_lift; [|done]. rename a1 into v.
    rewrite (mbind_run (ret (var v, a0)) _ _ _ _ eq_refl).
    destruct (IH (h ++ [m]) (loads_extends _ _ _ _ L (extends_app h [m])))
      as (h' & X & E).
    rewrite (mbind_run _ _ _ _ _ E).
    destruct (mapM _ angles) as [ys|e]; cbn [bind].
    + exists h'. split; [|reflexivity].
      eapply extends_trans; [apply extends_app | exact X].
    + exists h'. split; [|reflexivity].
      eapply extends_trans; [apply extends_app | exact X].
Qed.

Lemma exec_estimate_skew_angle h x a angles :
  loads h x a ->
  exec_value (estimate_skew_angle P x angles) h
    (Nlbin.estimate_skew_angle P a angles).
Proof.
  intro L. unfold exec_value, estimate_skew_angle, Nlbin.estimate_skew_angle.
  destruct (for_each_rotations h x a angles L) as (h' & X & E).
  rewrite (mbind_run _ _ _ _ _ E).
  destruct (mapM _ angles) as [ys|e]; cbn [bind].
  - run_lift.
    + destruct a0 as [v0 a0]. exists h'. split; [exact X | reflexivity].
    + exists h'. split; [exact X | reflexivity].
  - exists h'. split; [exact X | reflexivity].
Qed.

Lemma exec_array_with_intro {B} (m : M (loc * B)) h (r : result (farray * B)) :
  (exists h', extends h h' /\
     m h = (match r with Ok (_, b) => Ok (length h', b) | Raise e => Raise e end,
            match r with Ok (out, _) => h' ++ [out] | Raise _ => h' end)) ->
  exec_array_with m h r.
Proof.
  intros (h' & X & E). exists h'. split; [exact X|].
  destruct r as [[out b]|e]; exact E.
Qed.

Lemma exec_estimate_skew h x a bignore maxskew skewsteps :
  loads h x a ->
  exec_array_with (estimate_skew P x bignore maxskew skewsteps) h
    (Nlbin.estimate_skew P a bignore maxskew skewsteps).
Proof.
  intro L. apply exec_array_with_intro.
  unfold estimate_skew, Nlbin.estimate_skew, Nlbin.crop_border.
  run (np_shape_eq _ _ _ L).
  run_lift; [|done]. destruct a0 as [d0 d1].
  run_lift; [|done]. rename a0 into o0.
  run_lift; [|done]. rename a0 into o1.
  run (np_amax_eq _ _ _ L).
  destruct (amax a) as [mx|e]; cbn [bind]; [|done].
  run (np_map_eq _ _ _ (fun x => fsub mx x) L). cbv zeta.
  set (flat1 := amap (fun x => fsub mx x) a).
  run (np_amin_eq _ _ _ (loads_new h flat1)).
  destruct (amin flat1) as [mn|e]; cbn [bind]; [|done].
  run (np_imap_eq h flat1 [] (fun x => fsub x mn)).
  set (flat2 := amap (fun x => fsub x mn) flat1).
  assert (L2 := loads_new h flat2).
  destruct (np_slice_eq _ _ _ o0 (Z.of_nat d0 - o0) o1 (Z.of_nat d1 - o1) L2)
    as [Ee Le].
  run Ee. clear Ee.
  destruct (slice2 flat2 o0 (Z.of_nat d0 - o0) o1 (Z.of_nat d1 - o1))
    as [est|e]; cbn [bind]; [|done].
  specialize (Le est eq_refl).
  run_lift; [|done]. rename a0 into angles.
  destruct (exec_estimate_skew_angle _ _ _ angles Le) as (h3 & X3 & E3).
  assert (X : extends h h3)
    by (eapply extends_trans; [apply extends_app | exact X3]).
  rewrite (mbind_run _ _ _ _ _ E3).
  destruct (Nlbin.estimate_skew_angle P est angles) as [angle|e]; cbn [bind];
    [|done].
  run_case (rotate_eq _ _ _ angle 3%nat false (loads_extends _ _ _ _ L2 X3));
    [|done].
  rename a0 into flat3.
  run (np_amax_eq _ _ _ (loads_new h3 flat3)).
  destruct (amax flat3) as [mx3|e]; cbn [bind]; [|done].
  run (np_map_eq _ _ _ (fun x => fsub mx3 x) (loads_new h3 flat3)).
  done.
Qed.

Lemma exec_text_mask h x est escale :
  loads h x est ->
  exec_value (text_mask P x escale) h (Nlbin.text_mask P est escale).
Proof.
  intro L. unfold exec_value, text_mask, Nlbin.text_mask. cbv zeta.
  run (gaussian_filter_eq _ _ _ (fmul escale (Fin 20)) L).
  set (g := Nlbin.gaussian_filter P est (fmul escale (Fin 20))).
  run_case (np_zip_eq _ _ _ _ _ fsub
              (loads_extends _ _ _ _ L (extends_app h [g])) (loads_new h g));
    [|done].
  rename a into v.
  run (np_map_eq _ _ _ (fun x => fmul x x) (loads_new (h ++ [g]) v)).
  set (v2 := amap (fun x => fmul x x) v).
  run (gaussian_filter_eq _ _ _ (fmul escale (Fin 20))
         (loads_new ((h ++ [g]) ++ [v]) v2)).
  set (v3 := Nlbin.gaussian_filter P v2 (fmul escale (Fin 20))).
  set (h3 := ((h ++ [g]) ++ [v]) ++ [v2]).
  run (np_map_eq _ _ _ (fsqrt P) (loads_new h3 v3)).
  set (v4 := amap (fsqrt P) v3).
  run (np_amax_eq _ _ _ (loads_new (h3 ++ [v3]) v4)).
  destruct (amax v4) as [mx|e]; cbn [bind]; [|unfold h3; done].
  run (load_eq _ _ _ (loads_new (h3 ++ [v3]) v4)).
  run_lift; [|unfold h3; done].
  rewrite (mbind_run (lift _) _ _ _ _ eq_refl).
  unfold h3. done.
Qed.

Lemma exec_estimate_thresholds h x flat bignore escale lo hi :
  loads h x flat ->
  exec_value (estimate_thresholds P x bignore escale lo hi) h
    (Nlbin.estimate_thresholds P flat bignore escale lo hi).
Proof.
  intro L.
  unfold exec_value, estimate_thresholds, Nlbin.estimate_thresholds,
    Nlbin.crop_border.
  run (np_shape_eq _ _ _ L).
  run_lift; [|done]. destruct a as [d0 d1].
  run_lift; [|done]. rename a into o0.
  run_lift; [|done]. rename a into o1.
  destruct (np_slice_eq _ _ _ o0 (Z.of_nat d0 - o0) o1 (Z.of_nat d1 - o1) L)
    as [Ee Le].
  run Ee. clear Ee.
  destruct (slice2 flat o0 (Z.of_nat d0 - o0) o1 (Z.of_nat d1 - o1))
    as [est|e]; cbn [bind]; [|done].
  specialize (Le est eq_refl).
  destruct (fgtb escale (Fin 0)).
  - rewrite mbind_assoc.
    destruct (exec_text_mask _ _ _ escale Le) as (h2 & X2 & E2).
    rewrite (mbind_run _ _ _ _ _ E2).
    destruct (Nlbin.text_mask P est escale) as [v|e]; cbn [bind]; [|done].
    rewrite mbind_assoc.
    run (load_eq _ _ _ (loads_extends _ _ _ _ Le X2)).
    rewrite mbind_assoc.
    rewrite (mbind_run (alloc _) _ _ _ _ eq_refl).
    rewrite (mbind_run (ret _) _ _ _ _ eq_refl).
    run (load_eq _ _ _ (loads_new h2
           (mk_ndarray [length (select (data est) (data v))]
                       (select (data est) (data v))))).
    cbn [data].
    run_lift; [|done].
    run_lift; done.
  - rewrite (mbind_run (ret _) _ _ _ _ eq_refl).
    run (load_eq _ _ _ Le).
    run_lift; [|done].
    run_lift; done.
Qed.

Lemma exec_nlbin h x raw args :
  loads h x raw ->
  exec_array (nlbin P x args) h (Nlbin.nlbin P raw args).
Proof.
  intro L. apply exec_array_intro. unfold nlbin, Nlbin.nlbin.
  destruct (exec_normalize_raw_image h x raw L) as (h1 & X1 & E1).
  destruct (Nlbin.normalize_raw_image raw) as [image|e]; cbn [bind];
    rewrite (mbind_run _ _ _ _ _ E1); [|done].
  destruct (exec_estimate_local_whitelevel _ _ _ (zoom args) (perc args)
              (range args) (loads_new h1 image)) as (h2 & X2 & E2).
  assert (X12 : extends h h2)
    by (eapply extends_trans; [|exact X2]; ext).
  destruct (Nlbin.estimate_local_whitelevel P image (zoom args) (perc args)
              (range args)) as [flat|e]; cbn [bind];
    rewrite (mbind_run _ _ _ _ _ E2); [|done].
  destruct (exec_estimate_skew _ _ _ (bignore args) (maxskew args)
              (skewsteps args) (loads_new h2 flat)) as (h3 & X3 & E3).
  assert (X13 : extends h h3)
    by (eapply extends_trans; [|exact X3]; ext).
  destruct (Nlbin.estimate_skew P flat (bignore args) (maxskew args)
              (skewsteps args)) as [[flat3 angle]|e]; cbn [bind];
    rewrite (mbind_run _ _ _ _ _ E3); [|done].
  destruct (exec_estimate_thresholds _ _ _ (bignore args) (escale args)
              (lo args) (hi args) (loads_new h3 flat3)) as (h4 & [t ->] & E4).
  rewrite (mbind_run _ _ _ _ _ E4).
  destruct (Nlbin.estimate_thresholds P flat3 (bignore args) (escale args)
              (lo args) (hi args)) as [[lo hi]|e]; cbn [bind].
  2: { eexists. split; [|reflexivity]. rewrite <- app_assoc. ext. }
  rewrite <- app_assoc. cbn [app].
  run (np_imap_eq h3 flat3 t (fun x => fsub x lo)).
  run (np_imap_eq h3 (amap (fun x => fsub x lo) flat3) t
         (fun x => fdiv x (fsub hi lo))).
  exists (h3 ++ amap (fun x => fdiv x (fsub hi lo))
                  (amap (fun x => fsub x lo) flat3) :: t).
  split; [ext|].
  etransitivity.
  - exact (np_map_eq _ _ _ (fun x => clip x (Fin 0) (Fin 1))
             (loads_middle h3 _ t)).
  - reflexivity.
Qed.

End Pipeline.

End MemExec.

(** X1: on a heap where the reference [x] reads the array [a], each stage
    of the module with its arrays in memory does what the stage on values
    does on [a]: it raises the same exception, or it returns the same
    numbers and a newly allocated array that holds the same image.  The
    updates in place ([image /= ...], [flat -= ...]) are made to arrays the
    stage allocated itself and do not reach what is read later. *)
Theorem stages_compute_their_values (P : Prims) (h : Mem.heap) (x : Mem.aref)
    (a : farray) :
  Mem.loads h x a ->
  Mem.exec_array (Mem.normalize_raw_image x) h (Nlbin.normalize_raw_image a) /\
  (forall zoom perc range,
     Mem.exec_array (Mem.estimate_local_whitelevel P x zoom perc range) h
       (Nlbin.estimate_local_whitelevel P a zoom perc range)) /\
  (forall angles,
     Mem.exec_value (Mem.estimate_skew_angle P x angles) h
       (Nlbin.estimate_skew_angle P a angles)) /\
  (forall bignore maxskew skewsteps,
     Mem.exec_array_with (Mem.estimate_skew P x bignore maxskew skewsteps) h
       (Nlbin.estimate_skew P a bignore maxskew skewsteps)) /\
  (forall bignore escale lo hi,
     Mem.exec_value (Mem.estimate_thresholds P x bignore escale lo hi) h
       (Nlbin.estimate_thresholds P a bignore escale lo hi)).
Proof.
  intro L. split; [|split; [|split; [|split]]].
  - exact (MemExec.exec_normalize_raw_image h x a L).
  - intros zoom perc range.
    exact (MemExec.exec_estimate_local_whitelevel P h x a zoom perc range L).
  - intro angles. exact (MemExec.exec_estimate_skew_angle P h x a angles L).
  - intros bignore maxskew skewsteps.
    exact (MemExec.exec_estimate_skew P h x a bignore maxskew skewsteps L).
  - intros bignore escale lo hi.
    exact (MemExec.exec_estimate_thresholds P h x a bignore escale lo hi L).
Qed.

Lemma loads_example_page :
  Mem.loads [example_page] (Mem.Whole 0%nat) example_page.
Proof. split; [apply Nat.lt_0_1 | reflexivity]. Defined.

Lemma stages_compute_their_values_example :
  Mem.loads [example_page] (Mem.Whole 0%nat) example_page /\
  Mem.exec_array (Mem.normalize_raw_image (Mem.Whole 0%nat)) [example_page]
    (Nlbin.normalize_raw_image example_page) /\
  Mem.exec_value
    (Mem.estimate_thresholds example_prims (Mem.Whole 0%nat) (Fin (1 # 4)) (Fin 0)
       (Fin 5) (Fin 90))
    [example_page]
    (Nlbin.estimate_thresholds example_prims example_page (Fin (1 # 4)) (Fin 0)
       (Fin 5) (Fin 90)).
Proof.
  split; [exact loads_example_page|].
  destruct (stages_compute_their_values example_prims [example_page]
              (Mem.Whole 0%nat) example_page loads_example_page)
    as (N & _ & _ & _ & T).
  split; [exact N | apply T].
Defined.

(** X2: on a heap where [x] reads the page [raw], [nlbin] with its arrays
    in memory raises the exception that [nlbin] on values raises, or returns
    a newly allocated array that holds the image [nlbin] on values
    returns: the stretch in place ([flat -= lo], [flat /= hi - lo]) changes
    only the array [estimate_skew] allocated. *)
Theorem nlbin_in_memory_computes_nlbin (P : Prims) (h : Mem.heap)
    (x : Mem.aref) (raw : farray) (args : Args) :
  Mem.loads h x raw ->
  Mem.exec_array (Mem.nlbin P x args) h (Nlbin.nlbin P raw args).
Proof. exact (MemExec.exec_nlbin P h x raw args). Qed.

Lemma nlbin_in_memory_computes_nlbin_example :
  Mem.loads [example_page] (Mem.Whole 0%nat) example_page /\
  Mem.exec_array (Mem.nlbin example_prims (Mem.Whole 0%nat) example_args)
    [example_page] (Nlbin.nlbin example_prims example_page example_args).
Proof.
  split; [exact loads_example_page|].
  exact (nlbin_in_memory_computes_nlbin example_prims [example_page]
           (Mem.Whole 0%nat) example_page example_args loads_example_page).
Defined.

(** ** The estimated skew angle is one of the candidates *)







(** ** What [check_page] accepts *)

Lemma fold_fadd_nan (l : list sample) : fold_left fadd l NaN = NaN.
Proof. induction l as [|x l IH]; [reflexivity | exact IH]. Qed.

Lemma fsum_nan (l : list sample) (acc : sample) :
  In NaN l -> fold_left fadd l acc = NaN.
Proof.
  revert acc. induction l as [|x l IH]; intros acc I; [destruct I|].
  cbn [fold_left]. destruct I as [->|I].
  - replace (fadd acc NaN) with NaN by (destruct acc; reflexivity).
    apply fold_fadd_nan.
  - apply IH. exact I.
Qed.

(** The mean of an array with a NaN sample is NaN. *)
Lemma mean_nan (l : list sample) : In NaN l -> mean l = NaN.
Proof. intro I. unfold mean, fsum. rewrite (fsum_nan l _ I). reflexivity. Qed.


(** X6: a NaN sample never makes [check_page] refuse a page: the mean of
    the page is then NaN, the comparison with the median is false, and a
    page of two dimensions and of a valid size is accepted. *)
Theorem check_page_accepts_nan (image : farray) (h w : nat) :
  shape image = [h; w] -> In NaN (data image) ->
  600 <= Z.of_nat h <= 10000 -> 600 <= Z.of_nat w <= 10000 ->
  Nlbin.check_page image = Ok tt.
Proof.
  intros S I Hh Hw. unfold Nlbin.check_page. rewrite S, (mean_nan _ I).
  cbn [length Nat.eqb fltb unpack2 bind].
  destruct (Z.ltb_spec (Z.of_nat h) 600); [lia|].
  destruct (Z.ltb_spec 10000 (Z.of_nat h)); [lia|].
  destruct (Z.ltb_spec (Z.of_nat w) 600); [lia|].
  destruct (Z.ltb_spec 10000 (Z.of_nat w)); [lia|].
  reflexivity.
Qed.

Lemma check_page_accepts_nan_example :
  Nlbin.check_page
    (mk_ndarray [600; 600]%nat (NaN :: repeat (Fin 1) (600 * 600 - 1)))
  = Ok tt.
Proof.
  apply (check_page_accepts_nan _ 600 600).
  - reflexivity.
  - left. reflexivity.
  - split; [apply Z.leb_le | apply Z.leb_le]; reflexivity.
  - split; [apply Z.leb_le | apply Z.leb_le]; reflexivity.
Defined.

(** ** A border that leaves no region *)

Lemma flat_map_nil {A B} (f : A -> list B) (l : list A) :
  (forall x, f x = []) -> flat_map f l = [].
Proof.
  intro H. induction l as [|x l IH]; [reflexivity|].
  cbn [flat_map]. rewrite H, IH. reflexivity.
Qed.

Lemma crop_border_empty (flat est : farray) (d0 d1 : nat) (o0 o1 : Z) :
  shape flat = [d0; d1] -> 0 <= o0 -> 0 <= o1 ->
  Z.of_nat d0 <= 2 * o0 \/ Z.of_nat d1 <= 2 * o1 ->
  Nlbin.crop_border flat d0 d1 o0 o1 = Ok est -> data est = [].
Proof.
  intros S H0 H1 C. unfold Nlbin.crop_border, slice2. rewrite S.
  cbn [unpack2 bind]. intro E. injection E as <-. cbn [data].
  rewrite !slice_length by assumption. unfold slice_rows.
  destruct C as [C|C].
  - replace (d0 - 2 * Z.to_nat o0)%nat with 0%nat by lia. reflexivity.
  - replace (d1 - 2 * Z.to_nat o1)%nat with 0%nat by lia.
    apply flat_map_nil. intro i. reflexivity.
Qed.

(** X7: when the border [int(bignore * dimension)] takes half of the rows
    or half of the columns or more, nothing is left of the image: with no
    text mask ([escale <= 0]) [estimate_thresholds] raises no exception but
    returns NaN for both thresholds, whatever the percentiles asked, and the
    stretch with them turns every sample into NaN. *)
Theorem estimate_thresholds_of_empty_region (P : Prims) (flat : farray)
    (d0 d1 : nat) (bignore escale lo hi : sample) (o0 o1 : Z) :
  shape flat = [d0; d1] ->
  fleb (Fin 0) bignore = true ->
  fgtb escale (Fin 0) = false ->
  Nlbin.border bignore d0 = Ok o0 ->
  Nlbin.border bignore d1 = Ok o1 ->
  Z.of_nat d0 <= 2 * o0 \/ Z.of_nat d1 <= 2 * o1 ->
  Nlbin.estimate_thresholds P flat bignore escale lo hi = Ok (NaN, NaN) /\
  Forall (fun x => is_nan x = true) (data (Nlbin.stretch flat NaN NaN)).
Proof.
  intros S B G B0 B1 C.
  assert (H0 := border_nonneg _ _ _ B B0).
  assert (H1 := border_nonneg _ _ _ B B1).
  split.
  - unfold Nlbin.estimate_thresholds. rewrite S. cbn [unpack2 bind].
    rewrite B0, B1. cbn [bind].
    destruct (Nlbin.crop_border flat d0 d1 o0 o1) as [est|e] eqn:E.
    + cbn [bind]. rewrite G. cbn [bind].
      rewrite (crop_border_empty _ _ _ _ _ _ S H0 H1 C E). reflexivity.
    + unfold Nlbin.crop_border, slice2 in E. rewrite S in E.
      cbn [unpack2 bind] in E. discriminate E.
  - rewrite stretch_spec. cbn [amap data]. apply Forall_forall.
    intros y I. apply in_map_iff in I. destruct I as (x & <- & _).
    apply stretch_nan_threshold.
Qed.

Lemma estimate_thresholds_of_empty_region_example :
  Nlbin.border (Fin (1 # 2)) 4 = Ok 2 /\
  Nlbin.estimate_thresholds example_prims example_page (Fin (1 # 2)) (Fin 0)
    (Fin 5) (Fin 90) = Ok (NaN, NaN).
Proof.
  assert (B : Nlbin.border (Fin (1 # 2)) 4 = Ok 2) by (vm_compute; reflexivity).
  split; [exact B|].
  refine (proj1 (estimate_thresholds_of_empty_region example_prims
                   example_page 4 4 (Fin (1 # 2)) (Fin 0) (Fin 5) (Fin 90)
                   2 2 eq_refl eq_refl eq_refl B B _)).
  left. apply Z.leb_le. reflexivity.
Defined.

(** ** A negative border *)




(** ** Normalizing a normalized image *)

Lemma Forall2_map_in {A B} (R : A -> B -> Prop) (f : A -> B) (l : list A) :
  (forall x, In x l -> R x (f x)) -> Forall2 R l (map f l).
Proof.
  induction l as [|x l IH]; intro H; cbn [map]; constructor.
  - apply H. left. reflexivity.
  - apply IH. intros y I. apply H. right. exact I.
Qed.

(** X9: an image of finite samples whose minimum is 0 and whose maximum is
    1 is left as it is by [normalize_raw_image]: the result has the same
    shape and, sample by sample, equal values. *)
Theorem normalize_raw_image_of_normalized (a : farray) (lo hi : sample) :
  Forall (fun x => finite x = true) (data a) ->
  amin a = Ok lo -> feqb lo (Fin 0) = true ->
  amax a = Ok hi -> feqb hi (Fin 1) = true ->
  exists out,
    Nlbin.normalize_raw_image a = Ok out /\
    shape out = shape a /\
    Forall2 (fun x y => feqb x y = true) (data a) (data out).
Proof.
  intros AF Elo Zlo Ehi Zhi.
  assert (NE : data a <> []).
  { intro E. unfold amin, reduce in Elo. rewrite E in Elo. discriminate Elo. }
  destruct (amin_finite a NE AF) as (m & Em & Im & Lm).
  destruct (amax_finite a NE AF) as (M & EM & IM & LM).
  rewrite Em in Elo. injection Elo as <-.
  rewrite EM in Ehi. injection Ehi as <-.
  cbn [feqb] in Zlo, Zhi. qprop.
  assert (MF := max_float_pos).
  assert (S : forall q, In (Fin q) (data a) ->
              fsub (Fin q) (Fin m) = Fin (Qred (q + - m)) /\
              (Qred (q + - m) == q)%Q /\ (0 <= q)%Q /\ (q <= 1)%Q).
  { intros q Iq. specialize (Lm q Iq). specialize (LM q Iq).
    split; [apply shift_fin; lra|].
    split; [rewrite Qred_correct; lra | lra]. }
  destruct (amax_shifted a NE AF m Em) as (c & Ec & Ic & Fc).
  destruct (amin_shifted a NE AF m Em) as (b & Eb & Zb).
  destruct (shifted_elem a NE AF m Em c Ic) as (qc & Iqc & -> & _).
  destruct (S qc Iqc) as (Sc & Rc & _ & Uc). rewrite Sc in *.
  set (c' := Qred (qc + - m)) in *.
  assert (C1 : (c' == 1)%Q).
  { apply Qle_antisym; [lra|].
    destruct (S M IM) as (SM & RM & _).
    rewrite Forall_forall in Fc.
    assert (F := Fc (Fin (Qred (M + - m)))). cbn [fleb] in F.
    assert (F' : Qle_bool (Qred (M + - m)) c' = true).
    { apply F. apply in_map_iff. exists (Fin M). split; [exact SM | exact IM]. }
    qprop. lra. }
  assert (CB : feqb (Fin c') b = false).
  { destruct b as [| | |b']; try reflexivity. cbn [feqb] in *. qprop. lra. }
  unfold Nlbin.normalize_raw_image. rewrite Em. cbn [bind]. cbv zeta.
  rewrite Ec, Eb. cbn [bind]. rewrite CB.
  eexists. split; [reflexivity|]. split; [reflexivity|].
  rewrite amap_amap. cbn [amap data].
  apply Forall2_map_in. intros x Ix.
  destruct (raw_finite a AF x Ix) as (q & -> & _).
  destruct (S q Ix) as (Sq & Rq & Q0 & Q1). rewrite Sq.
  destruct (ratio_props (Qred (q + - m)) c') as (r & Er & Hr & _);
    [lra | lra | lra |].
  rewrite Er. cbn [feqb]. qprop. rewrite Hr, Rq, C1. field.
Qed.

Lemma normalize_raw_image_of_normalized_example :
  exists out,
    Nlbin.normalize_raw_image (image_of 1 3 [0; 1 # 2; 1]%Q) = Ok out /\
    shape out = [1; 3]%nat /\
    Forall2 (fun x y => feqb x y = true)
      [Fin 0; Fin (1 # 2); Fin 1] (data out).
Proof.
  apply (normalize_raw_image_of_normalized (image_of 1 3 [0; 1 # 2; 1]%Q)
           (Fin 0) (Fin 1)).
  - repeat constructor; vm_compute; reflexivity.
  - vm_compute. reflexivity.
  - reflexivity.
  - vm_compute. reflexivity.
  - reflexivity.
Defined.

(** ** The command [main] *)

Lemma normalize_raw_image_constant (raw : farray) :
  data raw <> [] ->
  Forall (fun x => finite x = true) (data raw) ->
  constant (data raw) ->
  Nlbin.normalize_raw_image raw = Raise (ValueError "image is empty").
Proof.
  intros NE AF C.
  destruct (amin_finite raw NE AF) as (m & Em & Im & Lm).
  destruct (amax_shifted raw NE AF m Em) as (c & Ec & Ic & Fc).
  destruct (amin_shifted raw NE AF m Em) as (b & Eb & Zb).
  assert (Z := proj2 (amax_shifted_zero raw NE AF m Em c Ec) C).
  unfold Nlbin.normalize_raw_image. rewrite Em. cbn [bind]. cbv zeta.
  rewrite Ec, Eb. cbn [bind].
  replace (feqb c b) with true; [reflexivity|].
  symmetry. apply (feqb_trans _ (Fin 0)); [exact Z|].
  rewrite feqb_sym. exact Zb.
Qed.


(** A gray level divided by 255 is a number of the unit interval. *)
Lemma gray_level_unit (p : Z) :
  0 <= p <= 255 ->
  exists r, fdiv (Fin (inject_Z p)) (Fin 255) = Fin r /\ (0 <= r)%Q /\ (r <= 1)%Q.
Proof.
  intro H.
  destruct (ratio_props (inject_Z p) 255) as (r & E & _ & R0 & R1).
  - change 0%Q with (inject_Z 0). rewrite <- Zle_Qle. lia.
  - change 255%Q with (inject_Z 255). rewrite <- Zle_Qle. lia.
  - reflexivity.
  - exists r. split; [exact E|]. split; assumption.
Qed.

(** X10: [main] fails on a page of one gray level (a blank page, for
    instance): whatever the arguments and the filters, the normalization
    raises ValueError "image is empty" and no image is written. *)
Theorem main_rejects_constant_page (P : Prims) (pixels : ndarray Z)
    (args : Args) (p : Z) :
  data pixels <> [] -> 0 <= p <= 255 ->
  Forall (fun x => x = p) (data pixels) ->
  Nlbin.main P pixels args = Raise (ValueError "image is empty").
Proof.
  intros NE B A. unfold Nlbin.main, Nlbin.nlbin. cbv zeta.
  rewrite normalize_raw_image_constant; [reflexivity | | |].
  - cbn [amap data]. destruct (data pixels); [congruence | discriminate].
  - cbn [amap data]. apply Forall_forall. intros y I.
    apply in_map_iff in I. destruct I as (x & <- & Ix).
    rewrite Forall_forall in A. rewrite (A x Ix).
    destruct (gray_level_unit p B) as (r & -> & R0 & R1).
    cbn [finite]. apply Qle_bool_iff. rewrite Qabs_pos by exact R0.
    assert (M := max_float_pos). lra.
  - intros x y Ix Iy. cbn [amap data] in Ix, Iy.
    apply in_map_iff in Ix. destruct Ix as (x' & <- & Ix).
    apply in_map_iff in Iy. destruct Iy as (y' & <- & Iy).
    rewrite Forall_forall in A. rewrite (A x' Ix), (A y' Iy).
    destruct (gray_level_unit p B) as (r & -> & _).
    cbn [feqb]. apply Qeq_bool_iff. reflexivity.
Qed.

Lemma main_rejects_constant_page_example :
  Nlbin.main example_prims white_pixels default_args
  = Raise (ValueError "image is empty").
Proof.
  apply (main_rejects_constant_page example_prims white_pixels default_args 255).
  - discriminate.
  - split; [apply Z.leb_le | apply Z.leb_le]; reflexivity.
  - repeat constructor.
Defined.

Lemma fleb_not_fltb (x t : sample) : fleb x t = true -> fltb t x = false.
Proof.
  destruct x, t; cbn [fleb fltb]; try congruence; try reflexivity.
  intro H. unfold Qlt_bool. rewrite H. reflexivity.
Qed.

(** Every sample of an image that [nlbin] returns is NaN or lies in the
    unit interval. *)
Lemma nlbin_samples (P : Prims) (raw : farray) (args : Args) (out : farray) :
  Nlbin.nlbin P raw args = Ok out ->
  forall x, In x (data out) -> is_nan x = true \/ in01 x = true.
Proof.
  intros H x I.
  destruct (nlbin_ok _ _ _ _ H) as (flat & angle & l & h & _ & _ & ->).
  rewrite stretch_spec in I. cbn [amap data] in I.
  apply in_map_iff in I. destruct I as (y & <- & _).
  apply clip_nan_or_in01.
Qed.

(** X11: with a threshold that is not negative, [main] writes only the
    bytes 0 and 255, a NaN sample of the result of [nlbin] being written
    as 0; and with a threshold of 1 or more the whole image it writes is
    0, since no sample of the result exceeds 1. *)
Theorem main_thresholded_output (P : Prims) (pixels : ndarray Z)
    (args : Args) (out : ndarray (option Z)) :
  fleb (Fin 0) (threshold args) = true ->
  Nlbin.main P pixels args = Ok out ->
  exists res,
    Nlbin.nlbin P (amap (fun p => fdiv (Fin (inject_Z p)) (Fin 255)) pixels)
      args = Ok res /\
    shape out = shape res /\
    Forall2 (fun x y => (y = Some 0 \/ y = Some 255) /\
                        (is_nan x = true -> y = Some 0))
            (data res) (data out) /\
    (fleb (Fin 1) (threshold args) = true ->
     Forall (fun y => y = Some 0) (data out)).
Proof.
  intros T H. unfold Nlbin.main in H. cbv zeta in H.
  inv_bind H. rename v into res. rewrite T in H. injection H as <-.
  exists res. split; [assumption|]. split; [reflexivity|].
  cbn [amap data]. split.
  - apply Forall2_map_in. intros x _. split.
    + destruct (fgtb x (threshold args)); [right | left]; reflexivity.
    + intro N. destruct x; try discriminate N.
      unfold fgtb. destruct (threshold args); reflexivity.
  - intro T1. apply Forall_forall. intros y I.
    apply in_map_iff in I. destruct I as (x & <- & Ix).
    replace (fgtb x (threshold args)) with false; [reflexivity|].
    symmetry. unfold fgtb.
    match goal with
    | E : Nlbin.nlbin _ _ _ = Ok res |- _ =>
        destruct (nlbin_samples _ _ _ _ E x Ix) as [N|U]
    end.
    + destruct x; try discriminate N. destruct (threshold args); reflexivity.
    + apply fleb_not_fltb. apply (fleb_trans _ (Fin 1)); [|exact T1].
      unfold in01 in U. apply andb_true_iff in U. apply U.
Qed.

Lemma main_thresholded_output_example :
  exists out,
    Nlbin.main example_prims example_pixels threshold_args = Ok out /\
    exists res,
      Nlbin.nlbin example_prims
        (amap (fun p => fdiv (Fin (inject_Z p)) (Fin 255)) example_pixels)
        threshold_args = Ok res /\
      shape out = shape res.
Proof.
  destruct (Nlbin.main example_prims example_pixels threshold_args)
    as [out|e] eqn:E; [|vm_compute in E; discriminate E].
  exists out. split; [reflexivity|].
  destruct (main_thresholded_output example_prims example_pixels
              threshold_args out eq_refl E) as (res & N & S & _).
  exists res. split; [exact N | exact S].
Defined.



(** ** ocrorot: the bin of a value and the value of a bin *)

Module OcrorotFacts.
Import Ocrorot.

Lemma argmin_from_bound (l : list sample) (i : nat) (mp : sample) (mi : nat) :
  (mi < i)%nat -> (argmin_from l i mp mi < i + length l)%nat.
Proof.
  revert i mp mi. induction l as [|x l IH]; intros i mp mi H; cbn [argmin_from length].
  - lia.
  - destruct (negb (fleb mp x)).
    + destruct (is_nan x); [lia|].
      specialize (IH (S i) x i ltac:(lia)). lia.
    + specialize (IH (S i) mp mi ltac:(lia)). lia.
Qed.

Lemma argmin_bound (l : list sample) (r : nat) :
  argmin l = Ok r -> (r < length l)%nat.
Proof.
  destruct l as [|x l]; intro H; [discriminate H|].
  injection H as <-. cbn [length]. destruct (is_nan x); [lia|].
  assert (B := argmin_from_bound l 1 x 0 ltac:(lia)). lia.
Qed.

Lemma first_min_snoc_keep (pre : list sample) (x : sample) (mi : nat) :
  first_min pre mi -> fleb (nth mi pre NaN) x = true ->
  first_min (pre ++ [x]) mi.
Proof.
  intros (B & Lt & Le) H. split; [|split].
  - rewrite length_app. cbn [length]. lia.
  - intros j Hj. rewrite !app_nth1 by lia. apply Lt. exact Hj.
  - intros j Hj. rewrite length_app in Hj. cbn [length] in Hj.
    rewrite (app_nth1 pre [x] NaN B).
    destruct (Nat.eq_dec j (length pre)) as [->|Ne].
    + rewrite app_nth2 by lia. rewrite Nat.sub_diag. exact H.
    + rewrite app_nth1 by lia. apply Le. lia.
Qed.

Lemma first_min_snoc_move (pre : list sample) (x : sample) (mi : nat) :
  first_min pre mi -> is_nan x = false -> fleb (nth mi pre NaN) x = false ->
  first_min (pre ++ [x]) (length pre).
Proof.
  intros (B & Lt & Le) N H.
  assert (X : nth (length pre) (pre ++ [x]) NaN = x).
  { rewrite app_nth2 by lia. rewrite Nat.sub_diag. reflexivity. }
  assert (M : is_nan (nth mi pre NaN) = false).
  { exact (proj1 (fleb_not_nan _ _ (Le mi B))). }
  assert (S : fltb x (nth mi pre NaN) = true).
  { destruct (fltb x (nth mi pre NaN)) eqn:E; [reflexivity|].
    rewrite (fltb_false_fleb _ _ N M E) in H. discriminate H. }
  split; [|split].
  - rewrite length_app. cbn [length]. lia.
  - intros j Hj. rewrite X, app_nth1 by lia.
    specialize (Le j Hj). revert S Le.
    generalize (nth mi pre NaN) (nth j pre NaN). intros a b S Le.
    clear - S Le. sample_cases.
  - intros j Hj. rewrite length_app in Hj. cbn [length] in Hj. rewrite X.
    destruct (Nat.eq_dec j (length pre)) as [->|Ne].
    + rewrite X. apply fleb_refl. exact N.
    + rewrite app_nth1 by lia.
      assert (Lj := Le j ltac:(lia)). revert S Lj.
      generalize (nth mi pre NaN) (nth j pre NaN). intros a b S Lj.
      clear - S Lj. sample_cases.
Qed.

(** The scan of [argmin], from a first minimum of the elements seen so
    far to a first minimum of all. *)
Lemma argmin_from_first_min (l pre : list sample) (mi : nat) :
  Forall (fun x => is_nan x = false) l ->
  first_min pre mi ->
  first_min (pre ++ l) (argmin_from l (length pre) (nth mi pre NaN) mi).
Proof.
  revert pre mi. induction l as [|x l IH]; intros pre mi N F;
    cbn [argmin_from].
  - rewrite app_nil_r. exact F.
  - inversion N as [|? ? Nx Nl]; subst.
    replace (pre ++ x :: l) with ((pre ++ [x]) ++ l)
      by (rewrite <- app_assoc; reflexivity).
    destruct (fleb (nth mi pre NaN) x) eqn:E; cbn [negb].
    + assert (F' := first_min_snoc_keep pre x mi F E).
      specialize (IH (pre ++ [x]) mi Nl F').
      rewrite length_app in IH. cbn [length] in IH.
      rewrite Nat.add_1_r in IH.
      rewrite (app_nth1 pre [x] NaN (proj1 F)) in IH. exact IH.
    + rewrite Nx.
      assert (F' := first_min_snoc_move pre x mi F Nx E).
      specialize (IH (pre ++ [x]) (length pre) Nl F').
      rewrite length_app in IH. cbn [length] in IH.
      rewrite Nat.add_1_r in IH.
      rewrite app_nth2 in IH by lia. rewrite Nat.sub_diag in IH.
      exact IH.
Qed.

Lemma argmin_first_min (l : list sample) :
  l <> [] -> Forall (fun x => is_nan x = false) l ->
  exists r, argmin l = Ok r /\ first_min l r.
Proof.
  destruct l as [|x l]; [congruence|]. intros _ N.
  inversion N as [|? ? Nx Nl]; subst.
  eexists. split; [reflexivity|]. cbn [argmin]. rewrite Nx.
  apply (argmin_from_first_min l [x] 0 Nl).
  split; [|split]; cbn [length nth].
  - lia.
  - intros j Hj. lia.
  - intros j Hj. replace j with 0%nat by lia. apply fleb_refl. exact Nx.
Qed.

(** The distance of a finite bin to a finite value is not NaN. *)
Lemma distance_not_nan (b x : sample) :
  finite b = true -> finite x = true -> is_nan (fabs (fsub b x)) = false.
Proof.
  destruct b as [| | |p]; try discriminate.
  destruct x as [| | |q]; try discriminate. intros _ _.
  cbn [fsub fopp fadd].
  assert (N := overflow_not_nan (p + - q)).
  destruct (overflow (p + - q)); try discriminate N; reflexivity.
Qed.

Lemma distances_not_nan (x : sample) (bins : list sample) :
  Forall (fun b => finite b = true) bins -> finite x = true ->
  Forall (fun d => is_nan d = false) (map (fun b => fabs (fsub b x)) bins).
Proof.
  intros F X. apply Forall_forall. intros d I.
  apply in_map_iff in I. destruct I as (b & <- & Ib).
  rewrite Forall_forall in F. apply distance_not_nan; [apply F; exact Ib | exact X].
Qed.

End OcrorotFacts.

(** X13: [binned] raises ValueError for an empty list of bins; for any
    other list, NaN or not, it returns an index of the list, so that
    [unbinned] of it is the bin at this index. *)
Theorem binned_is_an_index (x : sample) (bins : list sample) :
  Ocrorot.binned x [] =
    Raise (ValueError "attempt to get argmin of an empty sequence") /\
  (bins <> [] ->
   exists i, Ocrorot.binned x bins = Ok i /\ (i < length bins)%nat /\
     Ocrorot.unbinned (Z.of_nat i) bins = Some (nth i bins NaN)).
Proof.
  split; [reflexivity|]. intro NE.
  destruct (Ocrorot.binned x bins) as [i|e] eqn:E.
  - assert (B := OcrorotFacts.argmin_bound _ _ E). rewrite length_map in B.
    exists i. split; [reflexivity|]. split; [exact B|].
    unfold Ocrorot.unbinned. cbv zeta.
    destruct (Z.leb_spec 0 (Z.of_nat i)); [|lia].
    destruct (Z.ltb_spec (Z.of_nat i) (Z.of_nat (length bins))); [|lia].
    cbn [andb]. rewrite Nat2Z.id. apply nth_error_nth'. exact B.
  - unfold Ocrorot.binned in E. destruct bins as [|b bins]; [congruence|].
    discriminate E.
Qed.

(** The bin of a finite value among finite bins: a first minimum of the
    distances. *)
Lemma binned_first_min (x : sample) (bins : list sample) :
  bins <> [] ->
  Forall (fun b => finite b = true) bins -> finite x = true ->
  exists i,
    Ocrorot.binned x bins = Ok i /\ (i < length bins)%nat /\
    (forall j, (j < length bins)%nat ->
       fleb (Ocrorot.fabs (fsub (nth i bins NaN) x))
            (Ocrorot.fabs (fsub (nth j bins NaN) x)) = true) /\
    (forall j, (j < i)%nat ->
       fltb (Ocrorot.fabs (fsub (nth i bins NaN) x))
            (Ocrorot.fabs (fsub (nth j bins NaN) x)) = true).
Proof.
  intros NE F X.
  destruct (OcrorotFacts.argmin_first_min
              (map (fun b => Ocrorot.fabs (fsub b x)) bins))
    as (i & E & B & Lt & Le).
  - destruct bins; [congruence | discriminate].
  - apply OcrorotFacts.distances_not_nan; assumption.
  - rewrite length_map in B, Le.
    assert (D : forall j, (j < length bins)%nat ->
                nth j (map (fun b => Ocrorot.fabs (fsub b x)) bins) NaN
                = Ocrorot.fabs (fsub (nth j bins NaN) x)).
    { intros j Hj.
      rewrite (nth_indep _ NaN (Ocrorot.fabs (fsub NaN x)))
        by (rewrite length_map; exact Hj).
      apply (map_nth (fun b => Ocrorot.fabs (fsub b x))). }
    exists i. split; [exact E|]. split; [exact B|]. split.
    + intros j Hj. rewrite <- !D by assumption. apply Le. exact Hj.
    + intros j Hj. rewrite <- !D by lia. apply Lt. exact Hj.
Qed.



Lemma distance_zero (p q : Q) :
  fleb (Ocrorot.fabs (fsub (Fin p) (Fin q))) (Fin 0) = true -> (p == q)%Q.
Proof.
  cbn [fsub fopp fadd].
  destruct (overflow (p + - q)) as [| | |r] eqn:E; cbn [Ocrorot.fabs fleb];
    try discriminate.
  apply overflow_fin_eq in E. intro H. qprop.
  assert (A := Qle_Qabs r). assert (B := Qle_Qabs (- r)).
  rewrite Qabs_opp in B. lra.
Qed.

Lemma distance_self (q : Q) : Ocrorot.fabs (fsub (Fin q) (Fin q)) = Fin 0.
Proof.
  cbn [fsub fopp fadd]. rewrite overflow_zero by ring. reflexivity.
Qed.

(** X15: for finite bins that differ from each other, [binned] is the
    inverse of [unbinned]: the value of the bin [b] (counted from the end
    when [b] is negative) is classified into the bin [b] again. *)
Theorem binned_of_unbinned (bins : list sample) (b : Z) (v : sample) :
  Ocrorot.distinct_bins bins ->
  Ocrorot.unbinned b bins = Some v ->
  Ocrorot.binned v bins = Ok (Z.to_nat (b mod Z.of_nat (length bins))).
Proof.
  intros [F D] U.
  set (n := Z.of_nat (length bins)) in *.
  (* the index that [unbinned] reads *)
  assert (K : exists k, (k < length bins)%nat /\ nth_error bins k = Some v /\
                        Z.to_nat (b mod n) = k).
  { unfold Ocrorot.unbinned in U. cbv zeta in U. fold n in U.
    destruct (Z.leb_spec 0 b), (Z.ltb_spec b n); cbn [andb] in U.
    - exists (Z.to_nat b). split; [lia|]. split; [exact U|].
      rewrite Z.mod_small by lia. reflexivity.
    - destruct (Z.leb_spec (- n) b), (Z.ltb_spec b 0); cbn [andb] in U;
        try discriminate U. lia.
    - destruct (Z.leb_spec (- n) b), (Z.ltb_spec b 0); cbn [andb] in U;
        try discriminate U.
      exists (Z.to_nat (b + n)). split; [lia|]. split; [exact U|].
      f_equal. symmetry. apply (Z.mod_unique _ _ (-1)); lia.
    - lia. }
  destruct K as (k & Hk & Ek & ->).
  assert (Vk : nth k bins NaN = v) by (apply nth_error_nth; exact Ek).
  assert (Fv : finite v = true).
  { rewrite Forall_forall in F. apply F. rewrite <- Vk. apply nth_In. exact Hk. }
  destruct (binned_first_min v bins) as (i & E & B & Le & _).
  - intro E. rewrite E in Hk. cbn in Hk. lia.
  - exact F.
  - exact Fv.
  - rewrite E. f_equal.
    specialize (Le k Hk). rewrite Vk in Le.
    destruct v as [| | |q]; try discriminate Fv.
    rewrite distance_self in Le.
    assert (Fi : finite (nth i bins NaN) = true).
    { rewrite Forall_forall in F. apply F. apply nth_In. exact B. }
    destruct (nth i bins NaN) as [| | |p] eqn:Ei; try discriminate Fi.
    apply distance_zero in Le.
    destruct (Nat.lt_trichotomy i k) as [L|[L|L]]; [|exact L|].
    + specialize (D i k ltac:(lia)). rewrite Ei, Vk in D.
      cbn [feqb] in D. qprop. contradiction.
    + specialize (D k i ltac:(lia)). rewrite Ei, Vk in D.
      cbn [feqb] in D. qprop. exfalso. apply D. symmetry. exact Le.
Qed.

Lemma example_bins_distinct : Ocrorot.distinct_bins Ocrorot.example_bins.
Proof.
  split.
  - repeat constructor; vm_compute; reflexivity.
  - intros i j H. unfold Ocrorot.example_bins in *. cbn [length] in H.
    destruct i as [|[|[|i]]], j as [|[|[|j]]]; try lia; reflexivity.
Defined.

Lemma binned_of_unbinned_example :
  Ocrorot.unbinned (-1) Ocrorot.example_bins = Some (Fin (1 # 10)) /\
  Ocrorot.binned (Fin (1 # 10)) Ocrorot.example_bins = Ok 2%nat.
Proof.
  split; [reflexivity|].
  exact (binned_of_unbinned Ocrorot.example_bins (-1) (Fin (1 # 10))
           example_bins_distinct eq_refl).
Defined.

(** ** The shape of the flattened image for the default zoom *)

Lemma round_half_even_half (q : Q) (d : Z) :
  (q == inject_Z d * (1 # 2))%Q ->
  round_half_even q = if d mod 4 =? 1 then (d - 1) / 2 else (d + 1) / 2.
Proof.
  destruct q as [a b]. unfold Qeq. cbn [Qnum Qden inject_Z Qmult].
  intro H. unfold round_half_even. cbn [Qnum Qden].
  set (B := Z.pos b) in *. assert (B0 : 0 < B) by (unfold B; lia).
  replace (2 * a + B) with ((d + 1) * B) by lia.
  rewrite Z.div_mul_cancel_r by lia.
  rewrite Z.mul_mod_distr_r by lia.
  assert (R := Z.mod_pos_bound (d + 1) 2 ltac:(lia)).
  destruct (Z.eqb_spec ((d + 1) mod 2 * B) 0) as [E|E]; cbn [andb].
  - assert (E' : (d + 1) mod 2 = 0) by nia.
    destruct (Z.odd ((d + 1) / 2)) eqn:O.
    + apply Z.odd_spec in O. destruct O as [m Hm].
      destruct (Z.eqb_spec (d mod 4) 1) as [F|F];
        Z.div_mod_to_equations; lia.
    + apply (f_equal negb) in O. rewrite Z.negb_odd in O. cbn [negb] in O.
      apply Z.even_spec in O. destruct O as [m Hm].
      destruct (Z.eqb_spec (d mod 4) 1) as [F|F];
        Z.div_mod_to_equations; lia.
  - assert (E' : (d + 1) mod 2 = 1) by nia.
    destruct (Z.eqb_spec (d mod 4) 1) as [F|F];
      [Z.div_mod_to_equations; lia | reflexivity].
Qed.

Lemma round_half_even_int (q : Q) (z : Z) :
  (q == inject_Z z)%Q -> round_half_even q = z.
Proof.
  destruct q as [a b]. unfold Qeq. cbn [Qnum Qden inject_Z].
  intro H. unfold round_half_even. cbn [Qnum Qden].
  set (B := Z.pos b) in *. assert (B0 : 0 < B) by (unfold B; lia).
  replace (2 * a + B) with ((2 * z + 1) * B) by lia.
  rewrite Z.div_mul_cancel_r by lia.
  rewrite Z.mul_mod_distr_r by lia.
  assert (E : (2 * z + 1) mod 2 = 1) by (Z.div_mod_to_equations; lia).
  assert (F : (2 * z + 1) / 2 = z) by (Z.div_mod_to_equations; lia).
  rewrite E, F.
  destruct (Z.eqb_spec (1 * B) 0); [lia | reflexivity].
Qed.

Lemma exact_integers : (inject_Z (2 ^ 53) <= max_float)%Q.
Proof. apply Qle_bool_iff. vm_compute. reflexivity. Qed.

Lemma inject_Z_bounds (z : Z) :
  0 <= z <= 2 ^ 53 ->
  (0 <= inject_Z z)%Q /\ (inject_Z z <= max_float)%Q.
Proof.
  intro H. split.
  - change 0%Q with (inject_Z 0). rewrite <- Zle_Qle. lia.
  - apply (Qle_trans _ (inject_Z (2 ^ 53))); [|exact exact_integers].
    rewrite <- Zle_Qle. lia.
Qed.

(** The dimension of the image zoomed out by 1/2. *)
Lemma zoom_dim_half (d : nat) :
  Z.of_nat d < 2 ^ 53 ->
  zoom_dim (Fin (1 # 2)) d =
  Ok (Z.to_nat (if Z.of_nat d mod 4 =? 1 then (Z.of_nat d - 1) / 2
                else (Z.of_nat d + 1) / 2)).
Proof.
  intro H. unfold zoom_dim.
  destruct (inject_Z_bounds (Z.of_nat d) ltac:(lia)) as [D0 D1].
  rewrite float_of_int_fin by (lia || exact D1). cbn [bind fmul].
  rewrite (overflow_fin_between _ max_float) by lra.
  cbn [py_round bind].
  rewrite (round_half_even_half _ (Z.of_nat d)) by apply Qred_correct.
  match goal with
  | |- (if ?r <? 0 then _ else _) = _ =>
      destruct (Z.ltb_spec r 0) as [C|C]; [|reflexivity]
  end.
  exfalso. destruct (Z.of_nat d mod 4 =? 1) eqn:F.
  - apply Z.eqb_eq in F. Z.div_mod_to_equations. lia.
  - Z.div_mod_to_equations. lia.
Qed.

(** The dimension of the estimate zoomed back in by 2. *)
Lemma zoom_dim_double (s : nat) :
  2 * Z.of_nat s <= 2 ^ 53 ->
  zoom_dim (Fin 2) s = Ok (2 * s)%nat.
Proof.
  intro H. unfold zoom_dim.
  destruct (inject_Z_bounds (Z.of_nat s) ltac:(lia)) as [D0 D1].
  destruct (inject_Z_bounds (2 * Z.of_nat s) ltac:(lia)) as [E0 E1].
  assert (I : (inject_Z (Z.of_nat s) * 2 == inject_Z (2 * Z.of_nat s))%Q).
  { rewrite inject_Z_mult. change (inject_Z 2) with 2%Q. ring. }
  rewrite float_of_int_fin by (lia || exact D1). cbn [bind fmul].
  rewrite (overflow_fin_between _ max_float)
    by first [rewrite I; lra | lra].
  cbn [py_round bind].
  rewrite (round_half_even_int _ (2 * Z.of_nat s))
    by (rewrite Qred_correct; exact I).
  destruct (Z.ltb_spec (2 * Z.of_nat s) 0) as [C|C]; [lia|].
  f_equal. lia.
Qed.

(** The flattening with the zoom 0.5: the page is zoomed out to
    round(d / 2) and back in to twice that. *)
Lemma flattened_half_zoom (P : Prims) (image : farray)
    (perc : sample) (range : Z) (d0 d1 : nat) :
  shape image = [d0; d1] ->
  Z.of_nat d0 < 2 ^ 53 -> Z.of_nat d1 < 2 ^ 53 ->
  exists flat,
    Nlbin.estimate_local_whitelevel P image (Fin (1 # 2)) perc range
      = Ok flat /\
    shape flat = [if (d0 mod 4 =? 1)%nat then (d0 - 1)%nat else d0;
                  if (d1 mod 4 =? 1)%nat then (d1 - 1)%nat else d1].
Proof.
  intros S H0 H1.
  set (half := fun d : nat =>
         Z.to_nat (if Z.of_nat d mod 4 =? 1 then (Z.of_nat d - 1) / 2
                   else (Z.of_nat d + 1) / 2)).
  assert (B : forall d, Z.of_nat d < 2 ^ 53 ->
              2 * Z.of_nat (half d) <= 2 ^ 53 /\
              Nat.min d (2 * half d) =
              if (d mod 4 =? 1)%nat then (d - 1)%nat else d).
  { intros d Hd. unfold half.
    assert (M : Z.of_nat (d mod 4) = Z.of_nat d mod 4)
      by (rewrite Nat2Z.inj_mod; reflexivity).
    destruct (Z.eqb_spec (Z.of_nat d mod 4) 1) as [F|F];
      destruct (Nat.eqb_spec (d mod 4) 1) as [G|G]; try lia;
      split; Z.div_mod_to_equations; lia. }
  destruct (B d0 H0) as [B0 M0]. destruct (B d1 H1) as [B1 M1].
  unfold Nlbin.estimate_local_whitelevel, Nlbin.whitelevel,
    Nlbin.ndimage_zoom.
  rewrite S. unfold zoom_shape. cbn [mapM].
  rewrite (zoom_dim_half d0 H0), (zoom_dim_half d1 H1). cbn [bind].
  fold (half d0) (half d1).
  assert (V : py_div (Fin 1) (Fin (1 # 2)) = Ok (Fin 2))
    by (vm_compute; reflexivity).
  rewrite V. cbn [bind Nlbin.percentile_filter shape mapM].
  rewrite (zoom_dim_double (half d0) B0), (zoom_dim_double (half d1) B1).
  cbn [bind shape].
  unfold Nlbin.common_shape. cbn [length Nat.eqb map2 unpack2 bind].
  unfold slice2. rewrite S. cbn [shape unpack2 bind].
  rewrite !slice_index_of_nat, !slice_index_0, !Nat.sub_0_r.
  unfold azip. cbn [shape].
  replace (Nat.min (Nat.min d0 (2 * half d0)) d0)
    with (Nat.min d0 (2 * half d0)) by lia.
  replace (Nat.min (Nat.min d1 (2 * half d1)) d1)
    with (Nat.min d1 (2 * half d1)) by lia.
  replace (Nat.min (Nat.min d0 (2 * half d0)) (2 * half d0))
    with (Nat.min d0 (2 * half d0)) by lia.
  replace (Nat.min (Nat.min d1 (2 * half d1)) (2 * half d1))
    with (Nat.min d1 (2 * half d1)) by lia.
  unfold shape_eqb.
  destruct (list_eq_dec Nat.eq_dec _ _) as [_|N]; [|congruence].
  cbn [bind]. eexists. split; [reflexivity|].
  cbn [amap shape]. rewrite M0, M1. reflexivity.
Qed.



(** ** The shape of the image [nlbin] returns *)

Lemma normalize_raw_image_shape (raw image : farray) :
  Nlbin.normalize_raw_image raw = Ok image -> shape image = shape raw.
Proof.
  unfold Nlbin.normalize_raw_image. intro H.
  inv_bind H. cbv zeta in H. inv_bind H. inv_bind H.
  destruct (feqb _ _); [discriminate H|].
  inv_bind H. injection H as <-. reflexivity.
Qed.

Lemma estimate_skew_shape (P : Prims) (flat : farray)
    (bignore maxskew : sample) (skewsteps : Z) (flat' : farray) (angle : sample) :
  Nlbin.estimate_skew P flat bignore maxskew skewsteps = Ok (flat', angle) ->
  shape flat' = shape flat.
Proof.
  unfold Nlbin.estimate_skew. intro H.
  inv_bind H. destruct v as [d0 d1].
  do 8 inv_bind H. inv_bind H. injection H as <- _.
  rewrite shape_amap.
  match goal with
  | E : Nlbin.rotate _ _ _ _ false = Ok _ |- _ =>
      apply rotate_noreshape_shape in E; rewrite E
  end.
  reflexivity.
Qed.

(** X17: with the default zoom 0.5, the image [nlbin] returns for a page
    of d0 x d1 samples has d0 rows, or d0 - 1 when d0 is 1 modulo 4, and d1
    columns, or d1 - 1 when d1 is 1 modulo 4: the normalization, the skew
    correction and the stretch keep the shape, the flattening crops it. *)
Theorem nlbin_output_shape (P : Prims) (raw out : farray) (args : Args)
    (d0 d1 : nat) :
  shape raw = [d0; d1] ->
  Z.of_nat d0 < 2 ^ 53 -> Z.of_nat d1 < 2 ^ 53 ->
  zoom args = Fin (1 # 2) ->
  Nlbin.nlbin P raw args = Ok out ->
  shape out = [if (d0 mod 4 =? 1)%nat then (d0 - 1)%nat else d0;
               if (d1 mod 4 =? 1)%nat then (d1 - 1)%nat else d1].
Proof.
  intros S H0 H1 Z H. unfold Nlbin.nlbin in H.
  inv_bind H. rename v into image.
  inv_bind H. rename v into flat.
  inv_bind H. destruct v as [flat' angle].
  inv_bind H. destruct v as [lo hi]. injection H as <-.
  rewrite stretch_spec, shape_amap.
  match goal with
  | E : Nlbin.estimate_skew _ _ _ _ _ = Ok _ |- _ =>
      rewrite (estimate_skew_shape _ _ _ _ _ _ _ E)
  end.
  match goal with
  | E : Nlbin.normalize_raw_image raw = Ok image |- _ =>
      apply normalize_raw_image_shape in E; rewrite S in E;
      destruct (flattened_half_zoom P image (perc args) (range args) d0 d1
                  E H0 H1) as (f & Ef & Sf)
  end.
  match goal with
  | E : Nlbin.estimate_local_whitelevel _ _ _ _ _ = Ok flat |- _ =>
      rewrite Z, Ef in E; injection E as <-
  end.
  exact Sf.
Qed.

Lemma nlbin_output_shape_example :
  exists out,
    Nlbin.nlbin example_prims page_5x5 example_args = Ok out /\
    shape out = [4; 4]%nat.
Proof.
  destruct (Nlbin.nlbin example_prims page_5x5 example_args)
    as [out|e] eqn:E; [|vm_compute in E; discriminate E].
  exists out. split; [reflexivity|].
  exact (nlbin_output_shape example_prims page_5x5 out example_args 5 5
           eq_refl eq_refl eq_refl eq_refl E).
Defined.

(** ** Percentiles out of range *)




(** ** A NaN in the page *)

Lemma fold_fmin_absorbs (l : list sample) : fold_left fmin l NaN = NaN.
Proof. induction l as [|x l IH]; [reflexivity | exact IH]. Qed.

Lemma fold_fmax_absorbs (l : list sample) : fold_left fmax l NaN = NaN.
Proof. induction l as [|x l IH]; [reflexivity | exact IH]. Qed.

Lemma fmin_nan_r (x : sample) : fmin x NaN = NaN.
Proof. destruct x; reflexivity. Qed.

Lemma fmax_nan_r (x : sample) : fmax x NaN = NaN.
Proof. destruct x; reflexivity. Qed.

Lemma fold_fmin_nan (l : list sample) (x : sample) :
  In NaN (x :: l) -> fold_left fmin l x = NaN.
Proof.
  revert x. induction l as [|y l IH]; intros x I.
  - destruct I as [->|[]]. reflexivity.
  - cbn [fold_left]. destruct I as [->|[->|I]].
    + apply fold_fmin_absorbs.
    + rewrite fmin_nan_r. apply fold_fmin_absorbs.
    + apply IH. right. exact I.
Qed.

Lemma fold_fmax_nan (l : list sample) (x : sample) :
  In NaN (x :: l) -> fold_left fmax l x = NaN.
Proof.
  revert x. induction l as [|y l IH]; intros x I.
  - destruct I as [->|[]]. reflexivity.
  - cbn [fold_left]. destruct I as [->|[->|I]].
    + apply fold_fmax_absorbs.
    + rewrite fmax_nan_r. apply fold_fmax_absorbs.
    + apply IH. right. exact I.
Qed.

(** The least and the greatest sample of an array with a NaN are NaN. *)
Lemma amin_nan (a : farray) : In NaN (data a) -> amin a = Ok NaN.
Proof.
  unfold amin, reduce. destruct (data a) as [|x l]; [intros []|].
  intro I. rewrite (fold_fmin_nan l x I). reflexivity.
Qed.

Lemma amax_nan (a : farray) : In NaN (data a) -> amax a = Ok NaN.
Proof.
  unfold amax, reduce. destruct (data a) as [|x l]; [intros []|].
  intro I. rewrite (fold_fmax_nan l x I). reflexivity.
Qed.

(** X19: a single NaN sample spoils the normalization without an
    exception: the minimum is NaN, every sample minus it is NaN, the test
    for an empty image compares NaN with NaN and fails, and
    [normalize_raw_image] returns an image of the same shape whose samples
    are all NaN. *)
Theorem normalize_raw_image_nan (raw : farray) :
  In NaN (data raw) ->
  exists out,
    Nlbin.normalize_raw_image raw = Ok out /\
    shape out = shape raw /\
    Forall (fun x => is_nan x = true) (data out).
Proof.
  intro I. unfold Nlbin.normalize_raw_image.
  rewrite (amin_nan raw I). cbn [bind]. cbv zeta.
  set (image := amap (fun x => fsub x NaN) raw).
  assert (A : forall y, In y (data image) -> y = NaN).
  { intros y Iy. apply in_map_iff in Iy. destruct Iy as (x & <- & _).
    destruct x; reflexivity. }
  assert (N : In NaN (data image)).
  { apply in_map_iff. exists NaN. split; [reflexivity | exact I]. }
  rewrite (amax_nan image N), (amin_nan image N). cbn [bind feqb].
  eexists. split; [reflexivity|]. split; [reflexivity|].
  cbn [amap data]. apply Forall_forall. intros y Iy.
  apply in_map_iff in Iy. destruct Iy as (x & <- & Ix).
  rewrite (A x Ix). reflexivity.
Qed.

Lemma normalize_raw_image_nan_example :
  exists out,
    Nlbin.normalize_raw_image (mk_ndarray [1; 3]%nat [Fin 0; NaN; Fin 1])
      = Ok out /\
    shape out = [1; 3]%nat /\
    Forall (fun x => is_nan x = true) (data out).
Proof.
  apply (normalize_raw_image_nan (mk_ndarray [1; 3]%nat [Fin 0; NaN; Fin 1])).
  right. left. reflexivity.
Defined.
